(** * kubewatch: the controller, its work queue and the event configuration

    A shallow embedding of [config/config.go] and
    [pkg/controller/controller.go].  Package-level variables, the closure
    variable shared by the informer callbacks and the queue are explicit
    state; calls that block are given an outcome of their own. *)

From Stdlib Require Import ZArith QArith Ascii String.
From stdpp Require Import gmap strings list fin_maps.

Open Scope string_scope.

Set Warnings "-clear-no-such-hyp".

(** ** Go's [time] package, as far as the controller uses it *)

Module time.

(** An instant, in nanoseconds. *)
Definition Time := Z.

(** [time.Duration] is an int64 count of nanoseconds. *)
Definition Duration := Z.

Bind Scope Z_scope with Time Duration.

Definition minDuration : Duration := (- 2 ^ 63)%Z.
Definition maxDuration : Duration := (2 ^ 63 - 1)%Z.
Definition Second : Duration := 1000000000%Z.

(** [t.Sub(u)]: the difference, saturated to the range of [Duration]. *)
Definition Sub (t u : Time) : Duration :=
  let d := (t - u)%Z in
  if bool_decide (minDuration ≤ d ≤ maxDuration)%Z then d
  else if bool_decide (t < u)%Z then minDuration
  else maxDuration.

(** [d.Seconds()]: whole seconds plus the fraction, [sec + nsec/1e9].
    Go computes the sum in float64; both summands carry the sign of [d],
    so the comparison with zero below is the one the rational gives. *)
Definition Seconds (d : Duration) : Q :=
  (inject_Z (Z.quot d Second) + Qmake (Z.rem d Second) 1000000000)%Q.

(** [x > 0] on the result of [Seconds]. *)
Definition positive (x : Q) : bool := negb (Qle_bool x 0).

End time.

Bind Scope Z_scope with time.Time time.Duration.

(** ** Go's [strings.Split] for a one-character separator *)

Module strings.

(** [strings.Split(s, sep)]: the pieces of [s] between the occurrences
    of [sep]; a string without [sep] is its own single piece. *)
Fixpoint Split (s : string) (sep : ascii) : list string :=
  match s with
  | EmptyString => [EmptyString]
  | String c r =>
      if Ascii.eqb c sep then EmptyString :: Split r sep
      else match Split r sep with
           | [] => [String c EmptyString]
           | p :: ps => String c p :: ps
           end
  end.

(** The characters of [s] before the first [sep] (all of [s] when it has
    none). *)
Fixpoint before (sep : ascii) (s : string) : string :=
  match s with
  | EmptyString => EmptyString
  | String c r => if Ascii.eqb c sep then EmptyString else String c (before sep r)
  end.

(** [sep] occurs in [s]. *)
Fixpoint contains (sep : ascii) (s : string) : bool :=
  match s with
  | EmptyString => false
  | String c r => Ascii.eqb c sep || contains sep r
  end.

End strings.

(** ** [config/config.go] *)

Module config.

(** [type Resource struct]: one flag per watched kind. *)
Record Resource := mkResource {
  Deployment : bool;
  ReplicationController : bool;
  ReplicaSet : bool;
  DaemonSet : bool;
  Service : bool;
  Pod : bool;
  Job : bool;
  PersistentVolume : bool;
  Namespace : bool;
  Secret : bool;
  ConfigMap : bool;
  Ingress : bool
}.

(** [type Event struct]: the four lists of the granular configuration. *)
Record Event := mkEvent {
  Global : list string;
  Create : list string;
  Update : list string;
  Delete : list string
}.

(** [type Config struct]; the [Handler] block (sink credentials) plays no
    part in what follows and is left out.  The fields [Resource],
    [Namespace] and [Event] carry a [c] here, the names being taken. *)
Record Config := mkConfig {
  cResource : Resource;
  cNamespace : list string;
  cEvent : Event
}.

#[global] Instance Resource_eq_dec : EqDecision Resource.
Proof. solve_decision. Defined.

(** [Resource{}] *)
Definition Resource_zero : Resource :=
  mkResource false false false false false false false false false false false false.

(** One iteration of the loop of [configureEvents]: the [switch] sets the
    flag whose name is [s]; any other string changes nothing. *)
Definition configureEvent (r : Resource) (s : string) : Resource :=
  {| Deployment := Deployment r || String.eqb s "deployment";
     ReplicationController := ReplicationController r || String.eqb s "replicationcontroller";
     ReplicaSet := ReplicaSet r || String.eqb s "replicaset";
     DaemonSet := DaemonSet r || String.eqb s "daemonset";
     Service := Service r || String.eqb s "service";
     Pod := Pod r || String.eqb s "pod";
     Job := Job r || String.eqb s "job";
     PersistentVolume := PersistentVolume r || String.eqb s "persistentvolume";
     Namespace := Namespace r || String.eqb s "namespace";
     Secret := Secret r || String.eqb s "secret";
     ConfigMap := ConfigMap r || String.eqb s "configmap";
     Ingress := Ingress r || String.eqb s "ingress" |}.

Definition configureEvents (c : Config) (s : list string) : Config :=
  {| cResource := foldl configureEvent (cResource c) s;
     cNamespace := cNamespace c;
     cEvent := cEvent c |}.

(** [if flag { l = append(l, name) }] *)
Definition appendIf (flag : bool) (name : string) (l : list string) : list string :=
  if flag then l ++ [name] else l.

(** The names [UnmarshallConfig] appends to [Event.Global], in the order
    of its twelve [if] statements, with the strings as the source spells
    them. *)
Definition resourceGlobals (r : Resource) (g : list string) : list string :=
  let g := appendIf (DaemonSet r) "demonset" g in
  let g := appendIf (ReplicaSet r) "replicaset" g in
  let g := appendIf (Namespace r) "namespace" g in
  let g := appendIf (Deployment r) "deployment" g in
  let g := appendIf (Pod r) "pod" g in
  let g := appendIf (ReplicationController r) "replicationcontroller" g in
  let g := appendIf (Service r) "service" g in
  let g := appendIf (Job r) "job" g in
  let g := appendIf (PersistentVolume r) "persistentvolume" g in
  let g := appendIf (Secret r) "secret" g in
  let g := appendIf (ConfigMap r) "configmap" g in
  appendIf (Ingress r) "ingress" g.

Definition UnmarshallConfig (c : Config) : Config :=
  if bool_decide (cResource c ≠ Resource_zero) then
    {| cResource := cResource c;
       cNamespace := cNamespace c;
       cEvent := {| Global := resourceGlobals (cResource c) (Global (cEvent c));
                    Create := Create (cEvent c);
                    Update := Update (cEvent c);
                    Delete := Delete (cEvent c) |} |}
  else
    let c := configureEvents c (Global (cEvent c)) in
    let c := configureEvents c (Create (cEvent c)) in
    let c := configureEvents c (Update (cEvent c)) in
    configureEvents c (Delete (cEvent c)).

(** [os.Getenv]: the value of the variable, empty when it is not set. *)
Definition Getenv (env : gmap string string) (k : string) : string :=
  default "" (env !! k).

(** [type Slack struct] *)
Record Slack := mkSlack {
  Token : string;
  Channel : string
}.

(** A [Config] together with the [Handler.Slack] block that the record
    [Config] above leaves out; no function below reads another block of
    [Handler]. *)
Record Settings := mkSettings {
  sSlack : Slack;
  sConfig : Config
}.

(** [if !flag && os.Getenv(name) == "true" { flag = true }] *)
Definition orEnv (env : gmap string string) (flag : bool) (name : string) : bool :=
  flag || String.eqb (Getenv env name) "true".

(** [if field == "" && os.Getenv(name) != "" { field = os.Getenv(name) }] *)
Definition orElseEnv (env : gmap string string) (field : string) (name : string) : string :=
  if String.eqb field "" && negb (String.eqb (Getenv env name) "")
  then Getenv env name else field.

Definition CheckMissingResourceEnvvars (env : gmap string string) (c : Settings) : Settings :=
  let r := cResource (sConfig c) in
  {| sSlack :=
       {| Token := orElseEnv env (Token (sSlack c)) "SLACK_TOKEN";
          Channel := orElseEnv env (Channel (sSlack c)) "SLACK_CHANNEL" |};
     sConfig :=
       {| cResource :=
            {| Deployment := orEnv env (Deployment r) "KW_DEPLOYMENT";
               ReplicationController :=
                 orEnv env (ReplicationController r) "KW_REPLICATION_CONTROLLER";
               ReplicaSet := orEnv env (ReplicaSet r) "KW_REPLICASET";
               DaemonSet := orEnv env (DaemonSet r) "KW_DAEMONSET";
               Service := orEnv env (Service r) "KW_SERVICE";
               Pod := orEnv env (Pod r) "KW_POD";
               Job := orEnv env (Job r) "KW_JOB";
               PersistentVolume := orEnv env (PersistentVolume r) "KW_PERSISTENT_VOLUME";
               Namespace := orEnv env (Namespace r) "KW_NAMESPACE";
               Secret := orEnv env (Secret r) "KW_SECRET";
               ConfigMap := orEnv env (ConfigMap r) "KW_CONFIGMAP";
               Ingress := orEnv env (Ingress r) "KW_INGRESS" |};
          cNamespace := cNamespace (sConfig c);
          cEvent := cEvent (sConfig c) |} |}.

End config.

(** ** The work queue the controller drains

    [k8s.io/client-go/util/workqueue] is a dependency of the repository.
    The controller uses [NewRateLimitingQueue(DefaultControllerRateLimiter())]
    through [Add], [Get], [Done], [Forget], [NumRequeues], [AddRateLimited]
    and [ShutDown]; these are embedded here with the library's bookkeeping:
    a FIFO slice, the set [dirty] of items waiting to be processed, the set
    [processing] of items handed out by [Get], the per-item failure counts
    of the rate limiter and the items waiting for their delay to pass.  The
    queue is generic in its item ([interface{}]): it compares items with
    Go's [==], which on a struct value compares every field. *)

Module workqueue.

Section queue.

Context {Item : Type} `{Countable Item}.

(** [type Type struct] *)
Record Type_ := mkType {
  queue : list Item;
  dirty : gset Item;
  processing : gset Item;
  shuttingDown : bool
}.

Definition New : Type_ := mkType [] ∅ ∅ false.

(** [Add] marks the item dirty; an item already dirty is dropped, an
    item being processed is queued only by the [Done] that follows. *)
Definition Add (item : Item) (q : Type_) : Type_ :=
  if shuttingDown q then q
  else if bool_decide (item ∈ dirty q) then q
  else
    let d := {[item]} ∪ dirty q in
    if bool_decide (item ∈ processing q)
    then mkType (queue q) d (processing q) (shuttingDown q)
    else mkType (queue q ++ [item]) d (processing q) (shuttingDown q).

(** What a call of [Get] does: hand out the head of the queue, report
    the shutdown, or wait on the condition variable. *)
Inductive GetResult :=
| Got (item : Item) (q : Type_)
| Shutdown
| Blocks.

Definition Get (q : Type_) : GetResult :=
  match queue q with
  | [] => if shuttingDown q then Shutdown else Blocks
  | item :: rest =>
      Got item (mkType rest (dirty q ∖ {[item]}) ({[item]} ∪ processing q)
                       (shuttingDown q))
  end.

(** [Done]: the item is no longer processed; if it was added again in
    the meantime it is queued now. *)
Definition Done (item : Item) (q : Type_) : Type_ :=
  let p := processing q ∖ {[item]} in
  if bool_decide (item ∈ dirty q)
  then mkType (queue q ++ [item]) (dirty q) p (shuttingDown q)
  else mkType (queue q) (dirty q) p (shuttingDown q).

Definition ShutDown (q : Type_) : Type_ :=
  mkType (queue q) (dirty q) (processing q) true.

(** The rate-limiting queue: the queue above, the items whose delay has
    not passed yet (with the delay asked for) and the failure counts of
    [ItemExponentialFailureRateLimiter]. *)
Record RateLimiting := mkRateLimiting {
  base : Type_;
  waitingForAdd : gmap Item time.Duration;
  failures : gmap Item nat
}.

Definition NewRateLimitingQueue : RateLimiting := mkRateLimiting New ∅ ∅.

(** The rate-limiting queue embeds the plain one: [Add], [Done] and
    [ShutDown] on it are those of [base]. *)
Definition lift (f : Type_ → Type_) (q : RateLimiting) : RateLimiting :=
  mkRateLimiting (f (base q)) (waitingForAdd q) (failures q).

Definition NumRequeues (item : Item) (q : RateLimiting) : nat :=
  default 0 (failures q !! item).

Definition Forget (item : Item) (q : RateLimiting) : RateLimiting :=
  mkRateLimiting (base q) (waitingForAdd q) (delete item (failures q)).

(** The delay of the [exp]-th failure: 5ms doubled [exp] times, at most
    1000s.  (The default limiter takes the larger of this and the delay
    of a token bucket, which is never negative.) *)
Definition backoff (exp : nat) : time.Duration :=
  Z.min (5000000 * 2 ^ Z.of_nat exp) 1000000000000.

(** [When]: the delay for this failure; the count goes up by one. *)
Definition When (item : Item) (q : RateLimiting) : time.Duration * RateLimiting :=
  let exp := NumRequeues item q in
  (backoff exp,
   mkRateLimiting (base q) (waitingForAdd q) (<[item := S exp]> (failures q))).

(** [AddAfter]: nothing when shutting down, an immediate [Add] for a
    delay that is not positive, otherwise the item waits; of two waits
    for one item the earlier is kept. *)
Definition AddAfter (item : Item) (d : time.Duration) (q : RateLimiting) : RateLimiting :=
  if shuttingDown (base q) then q
  else if bool_decide (d ≤ 0)%Z
  then mkRateLimiting (Add item (base q)) (waitingForAdd q) (failures q)
  else
    let d' := match waitingForAdd q !! item with
              | Some d0 => Z.min d0 d
              | None => d
              end in
    mkRateLimiting (base q) (<[item := d']> (waitingForAdd q)) (failures q).

Definition AddRateLimited (item : Item) (q : RateLimiting) : RateLimiting :=
  let '(d, q) := When item q in AddAfter item d q.

(** The delay of a waiting item has passed: the waiting loop adds it. *)
Definition fire (item : Item) (q : RateLimiting) : RateLimiting :=
  match waitingForAdd q !! item with
  | Some _ =>
      mkRateLimiting (Add item (base q)) (delete item (waitingForAdd q)) (failures q)
  | None => q
  end.

(** Every delay has passed. *)
Definition fireAll (q : RateLimiting) : RateLimiting :=
  foldr fire q (elements (dom (waitingForAdd q))).

(** The failure counts once [item] failed [n] times in a row, no other
    item having failed. *)
Definition failuresAfter (item : Item) (n : nat) : gmap Item nat :=
  match n with
  | 0 => ∅
  | S _ => {[item := n]}
  end.

(** The queue in which [item] alone is pending, after [n] failures. *)
Definition retrying (item : Item) (n : nat) : RateLimiting :=
  mkRateLimiting (mkType [item] {[item]} ∅ false) ∅ (failuresAfter item n).

(** What [Get] leaves of the queue in which [item] alone was pending. *)
Definition taken (item : Item) : Type_ :=
  mkType [] ({[item]} ∖ {[item]}) ({[item]} ∪ ∅) false.

(** The item a call of [Get] hands out, if it does. *)
Definition item_of (r : GetResult) : option Item :=
  match r with
  | Got item _ => Some item
  | _ => None
  end.

(** The states a queue goes through when it is used as the controller
    uses it: any [Add], [Get] when it hands out an item, [Done] for an
    item that [Get] handed out, [ShutDown]. *)
Inductive reachable : Type_ → Prop :=
| reach_New : reachable New
| reach_Add item q : reachable q → reachable (Add item q)
| reach_Get item q q' : reachable q → Get q = Got item q' → reachable q'
| reach_Done item q : reachable q → item ∈ processing q → reachable (Done item q)
| reach_ShutDown q : reachable q → reachable (ShutDown q).

(** Pending items are dirty and not being processed, and none is
    pending twice. *)
Definition consistent (q : Type_) : Prop :=
  NoDup (queue q)
  ∧ ∀ x, x ∈ queue q → x ∈ dirty q ∧ x ∉ processing q.

End queue.

Arguments Type_ Item {_ _}.
Arguments RateLimiting Item {_ _}.
Arguments GetResult Item {_ _}.

End workqueue.

(** ** [pkg/controller/controller.go] *)

Module controller.

Definition error := string.

Definition maxRetries : nat := 5.

(** [type Event struct]: the item of the queue. *)
Record Event := mkEvent {
  key : string;
  eventType : string;
  namespace : string;
  resourceType : string
}.

#[global] Instance Event_eq_dec : EqDecision Event.
Proof. solve_decision. Defined.

#[global] Instance Event_countable : Countable Event.
Proof.
  refine (inj_countable'
            (fun e => (key e, eventType e, namespace e, resourceType e))
            (fun t => let '(k, t, n, r) := t in mkEvent k t n r) _).
  by intros [].
Defined.

Definition Event_zero : Event := mkEvent "" "" "" "".

Definition set_key (v : string) (e : Event) : Event :=
  mkEvent v (eventType e) (namespace e) (resourceType e).
Definition set_eventType (v : string) (e : Event) : Event :=
  mkEvent (key e) v (namespace e) (resourceType e).
Definition set_namespace (v : string) (e : Event) : Event :=
  mkEvent (key e) (eventType e) v (resourceType e).
Definition set_resourceType (v : string) (e : Event) : Event :=
  mkEvent (key e) (eventType e) (namespace e) v.

(** The fields of [meta_v1.ObjectMeta] the controller reads. *)
Record ObjectMeta := mkObjectMeta {
  Name : string;
  Namespace : string;
  CreationTimestamp : time.Time
}.

(** [event.Event] as the controller fills it: [Kind], [Name] and
    [Namespace]; its other fields stay at their zero value. *)
Record kbEvent := mkKbEvent {
  kbKind : string;
  kbName : string;
  kbNamespace : string
}.

(** What the controller takes from the packages around it: the watched
    objects ([interface{}] values handed over by the informer),
    [utils.GetObjectMetaData], and the two key functions of
    [k8s.io/client-go/tools/cache].  A [nil] object is [None]. *)
Class Cluster := {
  Obj : Type;
  GetObjectMetaData : option Obj → ObjectMeta;
  MetaNamespaceKeyFunc : Obj → string * option error;
  DeletionHandlingMetaNamespaceKeyFunc : Obj → string * option error
}.

(** *** [Start]: the controllers it creates

    [Start] loads the event configuration ([loadEventConfig] below), puts
    the empty namespace in an empty [conf.Namespace], and then goes through
    the resource flags in the order below.  For a namespaced kind it
    creates and runs one controller per iteration of a loop over
    [conf.Namespace], for namespaces and persistent volumes a single one.

    The [ListFunc] and [WatchFunc] of a namespaced controller do not hold a
    namespace of their own: they close over the loop variable [ns], of which
    each loop has one, and read it when the informer runs, some time after
    [go c.Run(stopCh)].  A controller is recorded here by the resource type
    given to [newResourceController] and by the values [ns] holds from the
    iteration that creates the controller on: the namespace its informer
    lists is one of them, and the last one once the loop is over.  The two
    cluster-wide kinds read no namespace. *)
Record Subscription := mkSubscription {
  subType : string;
  subNamespaces : list string
}.

(** [if len(conf.Namespace) == 0 { conf.Namespace = append(conf.Namespace, "") }] *)
Definition Start_namespaces (conf : config.Config) : list string :=
  if bool_decide (length (config.cNamespace conf) = 0)
  then config.cNamespace conf ++ [""]
  else config.cNamespace conf.

(** The iterations of [for _, ns := range nss]: the controller of each
    one, with the values of [ns] still to come when it is created. *)
Fixpoint perIteration (resourceType : string) (nss : list string)
    : list Subscription :=
  match nss with
  | [] => []
  | ns :: rest =>
      mkSubscription resourceType (ns :: rest) :: perIteration resourceType rest
  end.

(** [if flag { for _, ns := range conf.Namespace { ... } }] *)
Definition perNamespace (flag : bool) (resourceType : string) (nss : list string)
    : list Subscription :=
  if flag then perIteration resourceType nss else [].

(** [if flag { ... }] for a kind that has no namespace. *)
Definition once (flag : bool) (resourceType : string) : list Subscription :=
  if flag then [mkSubscription resourceType []] else [].

Definition Start (conf : config.Config) : list Subscription :=
  let nss := Start_namespaces conf in
  let r := config.cResource conf in
  perNamespace (config.Pod r) "pod" nss
  ++ perNamespace (config.DaemonSet r) "daemonset" nss
  ++ perNamespace (config.ReplicaSet r) "replicaset" nss
  ++ perNamespace (config.Service r) "service" nss
  ++ perNamespace (config.Deployment r) "deployment" nss
  ++ once (config.Namespace r) "namespace"
  ++ perNamespace (config.ReplicationController r) "replication controller" nss
  ++ perNamespace (config.Job r) "job" nss
  ++ once (config.PersistentVolume r) "persistent volume"
  ++ perNamespace (config.Secret r) "secret" nss
  ++ perNamespace (config.ConfigMap r) "configmap" nss
  ++ perNamespace (config.Ingress r) "ingress" nss.

Section controller.

Context `{Cluster}.

(** The three calls the controller makes on [handlers.Handler]. *)
Inductive Call :=
| ObjectCreated (obj : option Obj)
| ObjectDeleted (e : kbEvent)
| ObjectUpdated (obj : option Obj) (e : kbEvent).

(** A handler: how each call ends inside the sink, [None] for success.
    The controller's call statements take no result from the handler. *)
Definition Handler := Call → option error.

(** What the process does that can be seen from outside. *)
Inductive Effect :=
| Called (c : Call) (outcome : option error)
| HandleError (e : error)
| Info (msg : string)
| Errorf (msg : string).

(** The package-level variables. *)
Record Package := mkPackage {
  serverStartTime : time.Time;
  global : gmap string N;
  create : gmap string N;
  delete_ : gmap string N;
  update : gmap string N
}.

(** [type Controller struct] (without logger and clientset), with the
    variables [newEvent] and [err] that the three callbacks of
    [newResourceController] close over.  [indexer] is
    [informer.GetIndexer().GetByKey]. *)
Record Controller := mkController {
  queue : workqueue.RateLimiting Event;
  indexer : string → option Obj * bool * option error;
  eventHandler : Handler;
  newEvent : Event;
  err : option error
}.

Record State := mkState {
  pkg : Package;
  ctl : Controller;
  trace : list Effect
}.

(** *** State passing *)

Definition M (A : Type) : Type := State → A * State.

Definition ret {A} (a : A) : M A := fun s => (a, s).

Definition bind {A B} (m : M A) (k : A → M B) : M B :=
  fun s => let '(a, s') := m s in k a s'.

Definition gets {A} (f : State → A) : M A := fun s => (f s, s).

Definition modify (f : State → State) : M unit := fun s => (tt, f s).

Definition emit (e : Effect) : M unit :=
  modify (fun s => mkState (pkg s) (ctl s) (trace s ++ [e])).

Definition with_queue (f : workqueue.RateLimiting Event → workqueue.RateLimiting Event) : M unit :=
  modify (fun s =>
    let c := ctl s in
    mkState (pkg s)
            (mkController (f (queue c)) (indexer c) (eventHandler c) (newEvent c) (err c))
            (trace s)).

Definition with_newEvent (f : Event → Event) : M unit :=
  modify (fun s =>
    let c := ctl s in
    mkState (pkg s)
            (mkController (queue c) (indexer c) (eventHandler c) (f (newEvent c)) (err c))
            (trace s)).

Definition set_err (e : option error) : M unit :=
  modify (fun s =>
    let c := ctl s in
    mkState (pkg s)
            (mkController (queue c) (indexer c) (eventHandler c) (newEvent c) e)
            (trace s)).

Definition set_serverStartTime (t : time.Time) : M unit :=
  modify (fun s =>
    let p := pkg s in
    mkState (mkPackage t (global p) (create p) (delete_ p) (update p))
            (ctl s) (trace s)).

Notation "x <- m ;; k" := (bind m (fun x => k))
  (at level 100, m at next level, right associativity).
Notation "m ;; k" := (bind m (fun _ => k))
  (at level 100, right associativity).

(** [_, ok := m[k]] *)
Definition has (m : gmap string N) (k : string) : bool :=
  bool_decide (is_Some (m !! k)).

(** [m = make(map[string]uint8); for _, r := range l { m[r] = 0 }] *)
Definition load (l : list string) : gmap string N :=
  foldl (fun m r => <[r := 0%N]> m) ∅ l.

(** [loadEventConfig]: a map is made only for a list that is not empty;
    otherwise the variable keeps its value ([nil] at start). *)
Definition loadEventConfig (c : config.Config) : M unit :=
  modify (fun s =>
    let p := pkg s in
    let e := config.cEvent c in
    let g := if bool_decide (0 < length (config.Global e)) then load (config.Global e) else global p in
    let cr := if bool_decide (0 < length (config.Create e)) then load (config.Create e) else create p in
    let u := if bool_decide (0 < length (config.Update e)) then load (config.Update e) else update p in
    let d := if bool_decide (0 < length (config.Delete e)) then load (config.Delete e) else delete_ p in
    mkState (mkPackage (serverStartTime p) g cr d u) (ctl s) (trace s)).

(** *** The callbacks registered by [newResourceController]

    All three assign to the one variable [newEvent] and put a copy of
    it in the queue. *)

Definition enqueue_newEvent : M unit :=
  e <- gets (fun s => err (ctl s));;
  match e with
  | None =>
      ev <- gets (fun s => newEvent (ctl s));;
      with_queue (workqueue.lift (workqueue.Add ev))
  | Some _ => ret tt
  end.

Definition AddFunc (resourceType : string) (obj : Obj) : M unit :=
  let '(k, e) := MetaNamespaceKeyFunc obj in
  with_newEvent (set_key k);;
  set_err e;;
  with_newEvent (set_eventType "create");;
  with_newEvent (set_resourceType resourceType);;
  emit (Info ("Processing add to " +:+ resourceType +:+ ": " +:+ k));;
  enqueue_newEvent.

Definition UpdateFunc (resourceType : string) (old new : Obj) : M unit :=
  let '(k, e) := MetaNamespaceKeyFunc old in
  with_newEvent (set_key k);;
  set_err e;;
  with_newEvent (set_eventType "update");;
  with_newEvent (set_resourceType resourceType);;
  emit (Info ("Processing update to " +:+ resourceType +:+ ": " +:+ k));;
  enqueue_newEvent.

Definition DeleteFunc (resourceType : string) (obj : Obj) : M unit :=
  let '(k, e) := DeletionHandlingMetaNamespaceKeyFunc obj in
  with_newEvent (set_key k);;
  set_err e;;
  with_newEvent (set_eventType "delete");;
  with_newEvent (set_resourceType resourceType);;
  with_newEvent (set_namespace (Namespace (GetObjectMetaData (Some obj))));;
  emit (Info ("Processing delete to " +:+ resourceType +:+ ": " +:+ k));;
  enqueue_newEvent.

(** [newResourceController]: a fresh queue, the zero [Event]. *)
Definition newResourceController (eventHandler : Handler)
    (indexer : string → option Obj * bool * option error) : Controller :=
  mkController workqueue.NewRateLimitingQueue indexer eventHandler Event_zero None.

(** *** [processItem] *)

(** A call statement on the handler: the call happens, nothing of its
    outcome reaches the caller. *)
Definition call (c : Call) : M unit :=
  h <- gets (fun s => eventHandler (ctl s));;
  emit (Called c (h c)).

Definition processItem (newEvent : Event) : M (option error) :=
  idx <- gets (fun s => indexer (ctl s));;
  let '(obj, _, err) := idx (key newEvent) in
  match err with
  | Some err =>
      ret (Some ("Error fetching object with key " +:+ key newEvent
                 +:+ " from store: " +:+ err))
  | None =>
      let objectMeta := GetObjectMetaData obj in
      let newEvent :=
        if String.eqb (namespace newEvent) ""
        then set_namespace (hd "" (strings.Split (key newEvent) "/")) newEvent
        else newEvent in
      if String.eqb (eventType newEvent) "create" then
        start <- gets (fun s => serverStartTime (pkg s));;
        if time.positive (time.Seconds (time.Sub (CreationTimestamp objectMeta) start)) then
          g <- gets (fun s => global (pkg s));;
          cr <- gets (fun s => create (pkg s));;
          (if has g (resourceType newEvent) then call (ObjectCreated obj)
           else if has cr (resourceType newEvent) then call (ObjectCreated obj)
           else ret tt);;
          ret None
        else ret None
      else if String.eqb (eventType newEvent) "update" then
        let kbEvent := mkKbEvent (resourceType newEvent) (key newEvent) (namespace newEvent) in
        g <- gets (fun s => global (pkg s));;
        u <- gets (fun s => update (pkg s));;
        (if has g (resourceType newEvent) then call (ObjectUpdated obj kbEvent)
         else if has u (resourceType newEvent) then call (ObjectUpdated obj kbEvent)
         else ret tt);;
        ret None
      else if String.eqb (eventType newEvent) "delete" then
        let kbEvent := mkKbEvent (resourceType newEvent) (key newEvent) (namespace newEvent) in
        g <- gets (fun s => global (pkg s));;
        d <- gets (fun s => delete_ (pkg s));;
        (if has g (resourceType newEvent) then call (ObjectDeleted kbEvent)
         else if has d (resourceType newEvent) then call (ObjectDeleted kbEvent)
         else ret tt);;
        ret None
      else ret None
  end.

(** *** [processNextItem], [runWorker], [Run] *)

(** A call that may wait for ever on the queue. *)
Inductive Blocking (A : Type) :=
| Returns (a : A)
| Waits.
Arguments Returns {A} a.
Arguments Waits {A}.

Definition processNextItem : M (Blocking bool) :=
  q <- gets (fun s => queue (ctl s));;
  match workqueue.Get (workqueue.base q) with
  | workqueue.Blocks => ret Waits
  | workqueue.Shutdown => ret (Returns false)
  | workqueue.Got newEvent b =>
      with_queue (workqueue.lift (fun _ => b));;
      err <- processItem newEvent;;
      (match err with
       | None => with_queue (workqueue.Forget newEvent)
       | Some err =>
           n <- gets (fun s => workqueue.NumRequeues newEvent (queue (ctl s)));;
           if bool_decide (n < maxRetries) then
             emit (Errorf ("Error processing " +:+ key newEvent
                           +:+ " (will retry): " +:+ err));;
             with_queue (workqueue.AddRateLimited newEvent)
           else
             emit (Errorf ("Error processing " +:+ key newEvent
                           +:+ " (giving up): " +:+ err));;
             with_queue (workqueue.Forget newEvent);;
             emit (HandleError err)
       end);;
      (* defer c.queue.Done(newEvent) *)
      with_queue (workqueue.lift (workqueue.Done newEvent));;
      ret (Returns true)
  end.

(** How far a loop got: it returned, it waits in [queue.Get], or the
    fuel of the model ran out. *)
Inductive Status := Returned | Waiting | OutOfFuel.

(** [for c.processNextItem() {}] *)
Fixpoint runWorker (fuel : nat) : M Status :=
  match fuel with
  | 0 => ret OutOfFuel
  | S fuel =>
      r <- processNextItem;;
      match r with
      | Returns true => runWorker fuel
      | Returns false => ret Returned
      | Waits => ret Waiting
      end
  end.

(** [wait.Until(f, period, stopCh)]: [stopCh i] tells whether the
    channel is found closed at the [i]-th look, once before each call
    of [f] and once while the period passes. *)
Fixpoint Until (fuel : nat) (f : M Status) (stopCh : nat → bool) (i : nat) : M Status :=
  match fuel with
  | 0 => ret OutOfFuel
  | S fuel =>
      if stopCh i then ret Returned
      else
        r <- f;;
        match r with
        | Returned =>
            if stopCh (S i) then ret Returned
            else Until fuel f stopCh (S (S i))
        | other => ret other
        end
  end.

(** [Run].  [now] is [time.Now().Local()], [synced] the result of
    [cache.WaitForCacheSync(stopCh, c.HasSynced)].  The deferred
    [c.queue.ShutDown()] runs when [Run] returns. *)
Definition Run (now : time.Time) (synced : bool) (stopCh : nat → bool)
    (fuel : nat) : M Status :=
  emit (Info "Starting kubewatch controller");;
  set_serverStartTime now;;
  r <- (if negb synced then
          emit (HandleError "Timed out waiting for caches to sync");;
          ret Returned
        else
          emit (Info "Kubewatch controller synced and ready");;
          Until fuel (runWorker fuel) stopCh 0);;
  match r with
  | Returned => with_queue (workqueue.lift workqueue.ShutDown);; ret Returned
  | other => ret other
  end.

(** One step of the worker, after which every pending delay passes. *)
Definition round : M (Blocking bool) :=
  r <- processNextItem;;
  with_queue workqueue.fireAll;;
  ret r.

Fixpoint rounds (n : nat) : M unit :=
  match n with
  | 0 => ret tt
  | S n => round;; rounds n
  end.

(** *** The worker among the other users of the queue

    What happens to a controller's queue, one thing after the other: the
    worker takes a step, the delay of a requeued notice passes, or a
    callback of the informer adds a notice. *)
Inductive Action :=
| Work
| Fire (e : Event)
| Report (e : Event).

Definition act (a : Action) : M unit :=
  match a with
  | Work => _ <- processNextItem;; ret tt
  | Fire e => with_queue (workqueue.fire e)
  | Report e => with_queue (workqueue.lift (workqueue.Add e))
  end.

Fixpoint run (acts : list Action) (s : State) : State :=
  match acts with
  | [] => s
  | a :: acts => run acts (snd (act a s))
  end.

(** The action is a step of the worker in which [Get] hands out [e]. *)
Definition takes (e : Event) (a : Action) (s : State) : bool :=
  match a with
  | Work =>
      bool_decide (workqueue.item_of (workqueue.Get (workqueue.base (queue (ctl s))))
                   = Some e)
  | _ => false
  end.

(** How often the worker takes [e] in the course of [acts]. *)
Fixpoint attempts (e : Event) (acts : list Action) (s : State) : nat :=
  match acts with
  | [] => 0
  | a :: acts => Nat.b2n (takes e a s) + attempts e acts (snd (act a s))
  end.

(** Another goroutine's controller takes its turn on the same package
    variables and the same outside world. *)
Definition switch_to (c : Controller) (s : State) : State :=
  mkState (pkg s) c (trace s).

End controller.

Arguments Returns {_} a.
Arguments Waits {_}.

End controller.

(** ** A cluster to run the controller on

    Objects that are just their metadata, with the key functions of
    client-go: [namespace/name], or [name] alone for an object without
    namespace. *)

Module sample.

Import controller.

Definition keyOf (o : ObjectMeta) : string * option error :=
  if bool_decide (0 < String.length (Namespace o))
  then (Namespace o +:+ "/" +:+ Name o, None)
  else (Name o, None).

#[global] Instance cluster : Cluster := {|
  Obj := ObjectMeta;
  GetObjectMetaData := fun o => default (mkObjectMeta "" "" 0) o;
  MetaNamespaceKeyFunc := keyOf;
  DeletionHandlingMetaNamespaceKeyFunc := keyOf
|}.

(** A store holding the objects [l] under their keys; it never fails. *)
Definition store (l : list ObjectMeta) (k : string) : option ObjectMeta * bool * option error :=
  match List.find (fun o => String.eqb (fst (keyOf o)) k) l with
  | Some o => (Some o, true, None)
  | None => (None, false, None)
  end.

(** A store that cannot be read. *)
Definition broken (k : string) : option ObjectMeta * bool * option error :=
  (None, false, Some "store closed").

(** A sink that is down: every call fails. *)
Definition failing : Handler := fun _ => Some "sink unreachable".

(** A sink that works. *)
Definition working : Handler := fun _ => None.

Definition noFilters : Package := mkPackage 0 ∅ ∅ ∅ ∅.

(** The package variables after [loadEventConfig] on a configuration
    whose [Event.Global] is [["pod"]], with start time [t]. *)
Definition podsGlobal (t : time.Time) : Package :=
  mkPackage t (load ["pod"]) ∅ ∅ ∅.

Definition start (p : Package) (c : Controller) : State := mkState p c [].

(** Two pods, one created before and one after time 50. *)
Definition db : ObjectMeta := mkObjectMeta "db" "default" 10.
Definition web : ObjectMeta := mkObjectMeta "web" "default" 100.

(** The same controller with the sink down. *)
Definition sinkDown : State :=
  start (podsGlobal 50) (newResourceController failing (store [db; web])).

(** A controller whose store cannot be read. *)
Definition storeDown : State :=
  start (podsGlobal 50) (newResourceController working broken).

(** A controller for pods started at time 50, pods in the Global set. *)
Definition running : State :=
  start (podsGlobal 50) (newResourceController working (store [db; web])).

(** The informer of [running] has reported the pod web as added. *)
Definition added : State := snd (AddFunc "pod" web running).

(** The stop channel stays open. *)
Definition open : nat → bool := fun _ => false.

(** Two subscriptions of one process.  The first watches pods, among
    them one created at time 15, and its [Run] begins at time 10; the
    [Run] of the second begins at time 20. *)
Definition mid : ObjectMeta := mkObjectMeta "mid" "default" 15.

Definition first : Controller := newResourceController working (store [mid]).
Definition second : Controller := newResourceController working (store []).

Definition firstRuns : State :=
  snd (Run 10 true open 3 (start (podsGlobal 0) first)).

Definition secondRuns : State :=
  snd (Run 20 true open 3 (switch_to second firstRuns)).

(** The informer of [storeDown] has reported the deletion and then an
    update of the pod web: two notices of one key are pending. *)
Definition webUpdated : Event := mkEvent "default/web" "update" "" "pod".
Definition webDeleted : Event := mkEvent "default/web" "delete" "default" "pod".

Definition busy : State := run [Report webDeleted; Report webUpdated] storeDown.



(** Pods of two namespaces seen by one informer. *)
Definition a : ObjectMeta := mkObjectMeta "a" "prod" 60.
Definition b : ObjectMeta := mkObjectMeta "b" "dev" 70.

Definition watching : State :=
  start (podsGlobal 50) (newResourceController working (store [b])).

(** A cluster in which the informer may hand over something that is not
    an object ([None]); the key functions fail on it, as those of client-go
    do on a value without metadata. *)
Definition keyOfAny (o : option ObjectMeta) : string * option error :=
  match o with
  | Some o => keyOf o
  | None => ("", Some "object has no meta")
  end.

Definition withStrays : Cluster := {|
  Obj := option ObjectMeta;
  GetObjectMetaData := fun o => default (mkObjectMeta "" "" 0) (mjoin o);
  MetaNamespaceKeyFunc := keyOfAny;
  DeletionHandlingMetaNamespaceKeyFunc := keyOfAny
|}.

(** A controller whose filter sets hold "pod" under Update only. *)
Definition updatesOnly : State :=
  start (mkPackage 50 ∅ ∅ ∅ (load ["pod"]))
        (newResourceController working (store [db; web])).

(** A configuration that asks for daemonsets only. *)
Definition onlyDaemonSets : config.Config :=
  config.mkConfig
    (config.mkResource false false false true false false false false false false false false)
    [] (config.mkEvent [] [] [] []).

End sample.

(** ** The classifier and the dispatcher, in the words of the design

    The design describes [processItem] as a pure decision (forward or drop)
    followed by a dispatch.  These definitions say so; [processItem_ok]
    below shows that the code computes them. *)

Module design.

Import controller.

Section design.

Context `{Cluster}.

(** The namespace written into the envelope. *)
Definition envelope_namespace (ev : Event) : string :=
  if String.eqb (namespace ev) "" then hd "" (strings.Split (key ev) "/")
  else namespace ev.

Definition envelope (ev : Event) : kbEvent :=
  mkKbEvent (resourceType ev) (key ev) (envelope_namespace ev).

(** Forward or drop. *)
Definition forwards (p : Package) (creationTime : time.Time) (ev : Event) : bool :=
  if String.eqb (eventType ev) "create" then
    bool_decide (serverStartTime p < creationTime)%Z
    && (has (global p) (resourceType ev) || has (create p) (resourceType ev))
  else if String.eqb (eventType ev) "update" then
    has (global p) (resourceType ev) || has (update p) (resourceType ev)
  else if String.eqb (eventType ev) "delete" then
    has (global p) (resourceType ev) || has (delete_ p) (resourceType ev)
  else false.

(** The handler operation of a forwarded notice. *)
Definition dispatch (ev : Event) (obj : option Obj) : Call :=
  if String.eqb (eventType ev) "create" then ObjectCreated obj
  else if String.eqb (eventType ev) "update" then ObjectUpdated obj (envelope ev)
  else ObjectDeleted (envelope ev).

(** The state after the handler was called with [c]. *)
Definition called (c : Call) (s : State) : State :=
  mkState (pkg s) (ctl s) (trace s ++ [Called c (eventHandler (ctl s) c)]).

(** The message of [processItem] for a store that failed with [e]. *)
Definition fetchError (ev : Event) (e : error) : error :=
  "Error fetching object with key " +:+ key ev +:+ " from store: " +:+ e.

Definition willRetry (ev : Event) (e : error) : Effect :=
  Errorf ("Error processing " +:+ key ev +:+ " (will retry): " +:+ e).

Definition givingUp (ev : Event) (e : error) : Effect :=
  Errorf ("Error processing " +:+ key ev +:+ " (giving up): " +:+ e).

(** The state [s] with the queue [q] and the trace [tr]. *)
Definition state_with (q : workqueue.RateLimiting Event) (tr : list Effect)
    (s : State) : State :=
  mkState (pkg s)
          (mkController q (indexer (ctl s)) (eventHandler (ctl s))
                        (newEvent (ctl s)) (err (ctl s)))
          tr.

(** The state [s] with [h] for the controller's handler. *)
Definition with_eventHandler (h : Handler) (s : State) : State :=
  mkState (pkg s)
          (mkController (queue (ctl s)) (indexer (ctl s)) h
                        (newEvent (ctl s)) (err (ctl s)))
          (trace s).

(** [e] is in the queue, waiting for the worker. *)
Definition pending (e : Event) (s : State) : Prop :=
  e ∈ workqueue.queue (workqueue.base (queue (ctl s))).

(** [e] was requeued and its delay has not passed. *)
Definition delayed (e : Event) (s : State) : Prop :=
  is_Some (workqueue.waitingForAdd (queue (ctl s)) !! e).

(** [e] is on its way to its next attempt: pending or delayed, not both. *)
Definition live (e : Event) (s : State) : Prop :=
  (pending e s ∧ ¬ delayed e s) ∨ (¬ pending e s ∧ delayed e s).

(** Nothing of [e] is left in the queue. *)
Definition gone (e : Event) (s : State) : Prop :=
  ¬ pending e s ∧ ¬ delayed e s
  ∧ (e ∉ workqueue.dirty (workqueue.base (queue (ctl s)))).

(** The queue is in order and open, and nobody is processing [e]. *)
Definition sound (e : Event) (s : State) : Prop :=
  workqueue.consistent (workqueue.base (queue (ctl s)))
  ∧ workqueue.shuttingDown (workqueue.base (queue (ctl s))) = false
  ∧ (e ∉ workqueue.processing (workqueue.base (queue (ctl s))))
  ∧ (e ∈ workqueue.dirty (workqueue.base (queue (ctl s))) → pending e s).

(** Where [e] stands after [k] attempts that all failed with [failure]:
    up to [maxRetries] attempts leave it live with [k] requeues counted;
    the attempt after that leaves nothing of it, its count cleared and the
    failure handed to [HandleError]. *)
Definition retried (e : Event) (failure : error) (k : nat) (s : State) : Prop :=
  ((k ≤ maxRetries)%nat ∧ live e s ∧ workqueue.NumRequeues e (queue (ctl s)) = k)
  ∨ (k = S maxRetries ∧ gone e s
     ∧ workqueue.NumRequeues e (queue (ctl s)) = 0
     ∧ HandleError failure ∈ trace s).

(** The calls on the handler recorded in a trace. *)
Definition calls (tr : list Effect) : list Call :=
  omap (fun e => match e with Called c _ => Some c | _ => None end) tr.

End design.

End design.

(** * Properties *)

Import controller design.

Open Scope nat_scope.

(** ** Time *)

Lemma Seconds_positive (d : time.Duration) :
  time.positive (time.Seconds d) = bool_decide (0 < d)%Z.
Proof.
  unfold time.positive, time.Seconds, time.Second.
  pose proof (Z.quot_rem' d 1000000000) as E.
  destruct (Qle_bool _ 0) eqn:Hq.
  - apply Qle_bool_iff in Hq. unfold Qle, Qplus, inject_Z in Hq. simpl in Hq.
    symmetry. apply bool_decide_eq_false. lia.
  - symmetry. apply bool_decide_eq_true.
    destruct (decide (0 < d)%Z) as [|Hn]; [done|].
    exfalso. apply not_true_iff_false in Hq. apply Hq.
    apply Qle_bool_iff. unfold Qle, Qplus, inject_Z. simpl. lia.
Qed.

(** The test of [processItem] on the creation time holds exactly for an
    object created after the start time; the saturation of [Sub] keeps the
    sign. *)
Lemma Sub_positive (t u : time.Time) :
  time.positive (time.Seconds (time.Sub t u)) = bool_decide (u < t)%Z.
Proof.
  rewrite Seconds_positive. unfold time.Sub, time.minDuration, time.maxDuration.
  repeat case_bool_decide; try lia.
Qed.

Arguments time.Sub : simpl never.
Arguments time.Seconds : simpl never.
Arguments time.positive : simpl never.

(** ** [processItem] computes the classifier and the dispatcher *)

Section processItem.

Context `{Cluster}.

Lemma processItem_err (s : State) (ev : Event) obj found e :
  indexer (ctl s) (key ev) = (obj, found, Some e) →
  processItem ev s = (Some (fetchError ev e), s).
Proof.
  intros Hidx. unfold processItem, bind, gets, ret. simpl. by rewrite Hidx.
Qed.

Lemma processItem_ok (s : State) (ev : Event) obj found :
  indexer (ctl s) (key ev) = (obj, found, None) →
  processItem ev s =
    (None,
     if forwards (pkg s) (CreationTimestamp (GetObjectMetaData obj)) ev
     then called (dispatch ev obj) s else s).
Proof.
  intros Hidx. unfold processItem, bind, gets, ret. simpl. rewrite Hidx.
  unfold forwards, dispatch, envelope, envelope_namespace, called, call,
    bind, gets, emit, modify, ret.
  destruct ev as [k t n r]; simpl.
  destruct (String.eqb n ""); simpl;
    destruct (String.eqb t "create"); simpl; rewrite ?Sub_positive;
    repeat (case_bool_decide || case_match); simpl in *;
    simplify_eq; try done.
Qed.

End processItem.

(** ** The filter maps *)

Lemma load_lookup (l : list string) (m : gmap string N) (k : string) :
  is_Some (foldl (fun m r => <[r := 0%N]> m) m l !! k) ↔ k ∈ l ∨ is_Some (m !! k).
Proof.
  revert m. induction l as [|r l IH]; intros m; simpl.
  - split; [by right | intros [Hin | Hm]; [by apply elem_of_nil in Hin | done]].
  - rewrite IH, elem_of_cons, lookup_insert_is_Some.
    destruct (decide (r = k)) as [-> | Hne]; intuition (subst; auto).
Qed.

Lemma has_load (l : list string) (k : string) :
  has (load l) k = true ↔ k ∈ l.
Proof.
  unfold has, load. rewrite bool_decide_eq_true, load_lookup, lookup_empty.
  split; [intros [Hin | Hs]; [done | by destruct Hs] | by left].
Qed.

Lemma elem_of_appendIf (flag : bool) (name : string) (l : list string) (k : string) :
  k ∈ config.appendIf flag name l ↔ k ∈ l ∨ (flag = true ∧ k = name).
Proof.
  unfold config.appendIf. destruct flag.
  - rewrite elem_of_app, list_elem_of_singleton. tauto.
  - intuition discriminate.
Qed.

(** What [UnmarshallConfig] adds to [Event.Global] is one of its twelve
    literals, chosen by the flag of the same position. *)
Lemma elem_of_resourceGlobals (r : config.Resource) (g : list string) (k : string) :
  k ∈ config.resourceGlobals r g ↔
  k ∈ g
  ∨ (config.DaemonSet r = true ∧ k = "demonset")
  ∨ (config.ReplicaSet r = true ∧ k = "replicaset")
  ∨ (config.Namespace r = true ∧ k = "namespace")
  ∨ (config.Deployment r = true ∧ k = "deployment")
  ∨ (config.Pod r = true ∧ k = "pod")
  ∨ (config.ReplicationController r = true ∧ k = "replicationcontroller")
  ∨ (config.Service r = true ∧ k = "service")
  ∨ (config.Job r = true ∧ k = "job")
  ∨ (config.PersistentVolume r = true ∧ k = "persistentvolume")
  ∨ (config.Secret r = true ∧ k = "secret")
  ∨ (config.ConfigMap r = true ∧ k = "configmap")
  ∨ (config.Ingress r = true ∧ k = "ingress").
Proof.
  unfold config.resourceGlobals. rewrite !elem_of_appendIf. tauto.
Qed.

(** ** Classification *)

(** C2. Startup suppression: a create notice for an object whose
    creation time is not after the controller start time [T] leaves the
    state as it is (no handler is called, nothing is reported); for an
    object created after [T] whose resource type is in the Global or the
    Create filter set, the create handler is called with the raw object.
    The object's creation time is that of the metadata of the object the
    store returned for the key. *)
Theorem startup_suppression `{Cluster} (s : State) (ev : Event)
    (obj : option Obj) (found : bool) :
  eventType ev = "create" →
  indexer (ctl s) (key ev) = (obj, found, None) →
  let T := serverStartTime (pkg s) in
  let creationTime := CreationTimestamp (GetObjectMetaData obj) in
  ((creationTime ≤ T)%Z → processItem ev s = (None, s)) ∧
  ((T < creationTime)%Z →
   has (global (pkg s)) (resourceType ev) = true
   ∨ has (create (pkg s)) (resourceType ev) = true →
   processItem ev s = (None, called (ObjectCreated obj) s)).
Proof.
  intros Hc Hidx T creationTime. rewrite (processItem_ok _ _ _ _ Hidx).
  unfold forwards, dispatch. rewrite Hc. simpl. split.
  - intros Hle. rewrite bool_decide_eq_false_2; [done | subst T creationTime; lia].
  - intros Hlt Hin. rewrite bool_decide_eq_true_2 by done. simpl.
    destruct Hin as [-> | ->]; [done | by rewrite orb_true_r].
Qed.

(** C8. Filter precedence: a notice whose resource type is in the Global
    filter set is forwarded whatever the Create, Update and Delete sets
    hold: an update calls the update handler, a delete the delete handler,
    and a create, for an object created after the start time, the create
    handler. *)
Theorem filter_precedence `{Cluster} (s : State) (ev : Event)
    (obj : option Obj) (found : bool) :
  indexer (ctl s) (key ev) = (obj, found, None) →
  has (global (pkg s)) (resourceType ev) = true →
  (eventType ev = "update" →
   processItem ev s = (None, called (ObjectUpdated obj (envelope ev)) s))
  ∧ (eventType ev = "delete" →
     processItem ev s = (None, called (ObjectDeleted (envelope ev)) s))
  ∧ (eventType ev = "create" →
     (serverStartTime (pkg s) < CreationTimestamp (GetObjectMetaData obj))%Z →
     processItem ev s = (None, called (ObjectCreated obj) s)).
Proof.
  intros Hidx Hg. rewrite (processItem_ok _ _ _ _ Hidx).
  unfold forwards, dispatch. rewrite Hg.
  split; [|split]; intros ->; simpl; [done | done |].
  intros Hlt. by rewrite bool_decide_eq_true_2.
Qed.

(** C10. With a Resource block that is not empty and its DaemonSet flag
    set, [UnmarshallConfig] appends "demonset" to [Event.Global]; it adds
    "daemonset" to it in no case, so the Global map loaded from the result
    holds the controller's resource type "daemonset" only if the
    configuration listed it itself. *)
Theorem daemonset_global_mismatch `{Cluster} (c : config.Config) :
  config.cResource c ≠ config.Resource_zero →
  config.DaemonSet (config.cResource c) = true →
  let c' := config.UnmarshallConfig c in
  "demonset" ∈ config.Global (config.cEvent c')
  ∧ ("daemonset" ∈ config.Global (config.cEvent c')
     ↔ "daemonset" ∈ config.Global (config.cEvent c))
  ∧ ∀ s : State,
      has (global (pkg (snd (loadEventConfig c' s)))) "daemonset" = true
      ↔ "daemonset" ∈ config.Global (config.cEvent c).
Proof.
  intros Hne Hds c'.
  assert (Hg : config.Global (config.cEvent c')
               = config.resourceGlobals (config.cResource c)
                   (config.Global (config.cEvent c))).
  { subst c'. unfold config.UnmarshallConfig. by rewrite bool_decide_eq_true_2. }
  assert (Hd : "demonset" ∈ config.Global (config.cEvent c')).
  { rewrite Hg, elem_of_resourceGlobals. auto. }
  assert (Hx : "daemonset" ∈ config.Global (config.cEvent c')
               ↔ "daemonset" ∈ config.Global (config.cEvent c)).
  { rewrite Hg, elem_of_resourceGlobals. split; [|by left].
    intros Hor. repeat (destruct Hor as [Hor | Hor]; [by (done || destruct Hor)|]).
    by destruct Hor. }
  split; [done | split; [done |]].
  intros s. unfold loadEventConfig, modify. simpl.
  rewrite bool_decide_eq_true_2.
  - by rewrite has_load.
  - destruct (config.Global (config.cEvent c')); [by apply elem_of_nil in Hd | simpl; lia].
Qed.

Lemma startup_suppression_witness :
  processItem (mkEvent "default/db" "create" "" "pod") sample.running
  = (None, sample.running)
  ∧ processItem (mkEvent "default/web" "create" "" "pod") sample.running
    = (None, called (ObjectCreated (Some sample.web)) sample.running).
Proof.
  split.
  - apply (proj1 (startup_suppression sample.running
                    (mkEvent "default/db" "create" "" "pod")
                    (Some sample.db) true eq_refl eq_refl)).
    simpl. lia.
  - apply (proj2 (startup_suppression sample.running
                    (mkEvent "default/web" "create" "" "pod")
                    (Some sample.web) true eq_refl eq_refl)).
    + simpl. lia.
    + left. reflexivity.
Defined.

Lemma filter_precedence_witness :
  processItem (mkEvent "default/web" "update" "" "pod") sample.running
  = (None,
     called (ObjectUpdated (Some sample.web)
               (mkKbEvent "pod" "default/web" "default")) sample.running).
Proof.
  apply (proj1 (filter_precedence sample.running
                  (mkEvent "default/web" "update" "" "pod")
                  (Some sample.web) true eq_refl eq_refl)).
  reflexivity.
Defined.

Lemma daemonset_global_mismatch_witness :
  "demonset" ∈ config.Global (config.cEvent (config.UnmarshallConfig sample.onlyDaemonSets)).
Proof.
  apply (proj1 (daemonset_global_mismatch sample.onlyDaemonSets
                  ltac:(discriminate) eq_refl)).
Defined.

(** ** The work queue *)

Section workqueue_facts.

Context {Item : Type} `{Countable Item}.

Implicit Types (q : workqueue.Type_ Item) (x : Item).

Lemma consistent_New : workqueue.consistent (workqueue.New (Item:=Item)).
Proof.
  split; simpl; [constructor | intros x Hx; by apply elem_of_nil in Hx].
Qed.

Lemma consistent_Add x q :
  workqueue.consistent q → workqueue.consistent (workqueue.Add x q).
Proof.
  intros [Hnd Hq]. unfold workqueue.Add.
  destruct (workqueue.shuttingDown q); [done|].
  case_bool_decide as Hd; [done|].
  case_bool_decide as Hp; split; simpl.
  - done.
  - intros y Hy. destruct (Hq y Hy). set_solver.
  - apply NoDup_app. split; [done|]. split; [|apply NoDup_singleton].
    intros y Hy Hy'. apply list_elem_of_singleton in Hy' as ->.
    destruct (Hq x Hy). done.
  - intros y [Hy | Hy]%elem_of_app.
    + destruct (Hq y Hy). set_solver.
    + apply list_elem_of_singleton in Hy as ->. set_solver.
Qed.

Lemma consistent_Get x q q' :
  workqueue.consistent q → workqueue.Get q = workqueue.Got x q' →
  workqueue.consistent q'.
Proof.
  intros [Hnd Hq]. unfold workqueue.Get.
  destruct (workqueue.queue q) as [|y rest] eqn:E.
  - by destruct (workqueue.shuttingDown q).
  - intros [= -> <-]. apply NoDup_cons in Hnd as [Hx Hnd].
    split; simpl; [done|]. intros z Hz.
    destruct (Hq z) as [Hzd Hzp]; [by right|].
    assert (z ≠ x) by (intros ->; done). set_solver.
Qed.

Lemma consistent_Done x q :
  workqueue.consistent q → x ∈ workqueue.processing q →
  workqueue.consistent (workqueue.Done x q).
Proof.
  intros [Hnd Hq] Hp. unfold workqueue.Done.
  assert (Hx : x ∉ workqueue.queue q) by (intros Hx; by destruct (Hq x Hx)).
  case_bool_decide as Hd; split; simpl.
  - apply NoDup_app. split; [done|]. split; [|apply NoDup_singleton].
    intros y Hy Hy'. by apply list_elem_of_singleton in Hy' as ->.
  - intros y [Hy | Hy]%elem_of_app.
    + destruct (Hq y Hy). set_solver.
    + apply list_elem_of_singleton in Hy as ->. set_solver.
  - done.
  - intros y Hy. destruct (Hq y Hy). set_solver.
Qed.

Lemma reachable_consistent q : workqueue.reachable q → workqueue.consistent q.
Proof.
  induction 1 as [| x q _ IH | x q q' _ IH Hg | x q _ IH Hp | q _ IH].
  - apply consistent_New.
  - by apply consistent_Add.
  - by eapply consistent_Get.
  - by apply consistent_Done.
  - done.
Qed.

(** An item that is pending is not added a second time. *)
Lemma Add_pending x q :
  workqueue.consistent q → x ∈ workqueue.queue q → workqueue.Add x q = q.
Proof.
  intros [_ Hq] Hx. destruct (Hq x Hx) as [Hd _]. unfold workqueue.Add.
  destruct (workqueue.shuttingDown q); [done|].
  by rewrite bool_decide_eq_true_2.
Qed.

(** An item new to the queue goes to its end. *)
Lemma Add_fresh x q :
  workqueue.shuttingDown q = false →
  x ∉ workqueue.dirty q → x ∉ workqueue.processing q →
  workqueue.Add x q
  = workqueue.mkType (workqueue.queue q ++ [x]) ({[x]} ∪ workqueue.dirty q)
      (workqueue.processing q) false.
Proof.
  intros Hs Hd Hp. unfold workqueue.Add. rewrite Hs.
  by rewrite !bool_decide_eq_false_2.
Qed.

(** Two different items that are new to the queue are both queued, in
    the order of their [Add]. *)
Lemma Add_Add_distinct x y q :
  x ≠ y →
  workqueue.shuttingDown q = false →
  x ∉ workqueue.dirty q → y ∉ workqueue.dirty q →
  x ∉ workqueue.processing q → y ∉ workqueue.processing q →
  workqueue.queue (workqueue.Add y (workqueue.Add x q))
  = (workqueue.queue q ++ [x; y])%list.
Proof.
  intros Hne Hs Hxd Hyd Hxp Hyp.
  rewrite (Add_fresh x q) by done.
  rewrite Add_fresh; simpl; [by rewrite <- app_assoc | done | set_solver | done].
Qed.

(** *** A single item that is retried *)

Lemma backoff_pos (n : nat) : (0 < workqueue.backoff n)%Z.
Proof.
  unfold workqueue.backoff. apply Z.min_glb_lt; [|done].
  apply Z.mul_pos_pos; [done|]. apply Z.pow_pos_nonneg; lia.
Qed.

Lemma Add_New x :
  workqueue.lift (workqueue.Add x) workqueue.NewRateLimitingQueue
  = workqueue.retrying x 0.
Proof.
  unfold workqueue.lift, workqueue.retrying, workqueue.Add. simpl.
  rewrite !bool_decide_eq_false_2 by set_solver.
  simpl. f_equal. f_equal. set_solver.
Qed.

Lemma Get_retrying x n :
  workqueue.Get (workqueue.base (workqueue.retrying x n))
  = workqueue.Got x (workqueue.taken x).
Proof. reflexivity. Qed.

Lemma NumRequeues_retrying x n f :
  workqueue.NumRequeues x (workqueue.lift f (workqueue.retrying x n)) = n.
Proof.
  unfold workqueue.NumRequeues. simpl. destruct n; simpl.
  - by rewrite lookup_empty.
  - by rewrite lookup_singleton_eq.
Qed.

Lemma fireAll_New :
  workqueue.fireAll (workqueue.NewRateLimitingQueue (Item:=Item))
  = workqueue.NewRateLimitingQueue.
Proof.
  unfold workqueue.fireAll. simpl. by rewrite dom_empty_L, elements_empty.
Qed.

(** A failed attempt below the bound, then the delay: the item is
    pending again, with one failure more. *)
Lemma retry_step x n :
  workqueue.fireAll
    (workqueue.lift (workqueue.Done x)
       (workqueue.AddRateLimited x
          (workqueue.lift (fun _ => workqueue.taken x) (workqueue.retrying x n))))
  = workqueue.retrying x (S n).
Proof.
  unfold workqueue.AddRateLimited, workqueue.When.
  rewrite NumRequeues_retrying.
  unfold workqueue.AddAfter. simpl.
  rewrite bool_decide_eq_false_2 by (pose proof (backoff_pos n); lia).
  rewrite lookup_empty.
  unfold workqueue.fireAll, workqueue.lift, workqueue.Done. simpl.
  rewrite bool_decide_eq_false_2 by set_solver.
  rewrite insert_empty, dom_singleton_L, elements_singleton. simpl.
  unfold workqueue.fire. simpl. rewrite lookup_singleton_eq.
  unfold workqueue.Add. simpl.
  rewrite !bool_decide_eq_false_2 by set_solver.
  simpl. rewrite delete_singleton_eq.
  unfold workqueue.retrying. f_equal.
  - f_equal; set_solver.
  - destruct n; simpl; [by rewrite insert_empty | by rewrite insert_singleton_eq].
Qed.

(** The attempt after which the item is forgotten (it succeeded, or the
    retries are used up): nothing of the item is left. *)
Lemma forget_step x n :
  workqueue.lift (workqueue.Done x)
    (workqueue.Forget x
       (workqueue.lift (fun _ => workqueue.taken x) (workqueue.retrying x n)))
  = workqueue.NewRateLimitingQueue.
Proof.
  unfold workqueue.lift, workqueue.Forget, workqueue.Done. simpl.
  rewrite bool_decide_eq_false_2 by set_solver.
  unfold workqueue.NewRateLimitingQueue, workqueue.New. f_equal.
  - f_equal; set_solver.
  - destruct n; simpl; [apply delete_empty | apply delete_singleton_eq].
Qed.

End workqueue_facts.

(** ** One step of the worker *)

Section processNextItem.

Context `{Cluster}.

Implicit Types (s : State) (e : Event).

Lemma processNextItem_Waits s :
  workqueue.Get (workqueue.base (queue (ctl s))) = workqueue.Blocks →
  processNextItem s = (Waits, s).
Proof.
  intros Hg. unfold processNextItem, bind, gets, ret. simpl. by rewrite Hg.
Qed.

Lemma processNextItem_Shutdown s :
  workqueue.Get (workqueue.base (queue (ctl s))) = workqueue.Shutdown →
  processNextItem s = (Returns false, s).
Proof.
  intros Hg. unfold processNextItem, bind, gets, ret. simpl. by rewrite Hg.
Qed.

(** The store answered: whatever the handler did, the item is forgotten
    and done. *)
Lemma processNextItem_ok s e b obj found :
  workqueue.Get (workqueue.base (queue (ctl s))) = workqueue.Got e b →
  indexer (ctl s) (key e) = (obj, found, None) →
  let q := workqueue.lift (fun _ => b) (queue (ctl s)) in
  let s1 := state_with q (trace s) s in
  let s2 := if forwards (pkg s) (CreationTimestamp (GetObjectMetaData obj)) e
            then called (dispatch e obj) s1 else s1 in
  processNextItem s
  = (Returns true,
     state_with (workqueue.lift (workqueue.Done e) (workqueue.Forget e q))
                (trace s2) s).
Proof.
  intros Hg Hidx q s1 s2. unfold processNextItem, bind, gets. simpl. rewrite Hg.
  unfold with_queue at 1. unfold modify. simpl.
  erewrite processItem_ok by exact Hidx.
  subst s2. simpl. destruct (forwards _ _ _); reflexivity.
Qed.

(** The store failed and the item was requeued fewer than [maxRetries]
    times: it is requeued with a delay. *)
Lemma processNextItem_retry s e b obj found x :
  workqueue.Get (workqueue.base (queue (ctl s))) = workqueue.Got e b →
  indexer (ctl s) (key e) = (obj, found, Some x) →
  let q := workqueue.lift (fun _ => b) (queue (ctl s)) in
  workqueue.NumRequeues e q < maxRetries →
  processNextItem s
  = (Returns true,
     state_with (workqueue.lift (workqueue.Done e) (workqueue.AddRateLimited e q))
                (trace s ++ [willRetry e (fetchError e x)]) s).
Proof.
  intros Hg Hidx q Hn. unfold processNextItem, bind, gets. simpl. rewrite Hg.
  unfold with_queue at 1. unfold modify. simpl.
  erewrite processItem_err by exact Hidx.
  simpl. fold q. by rewrite bool_decide_eq_true_2.
Qed.

(** The store failed and the retries are used up: the item is forgotten
    and the error handed to [HandleError]. *)
Lemma processNextItem_giveup s e b obj found x :
  workqueue.Get (workqueue.base (queue (ctl s))) = workqueue.Got e b →
  indexer (ctl s) (key e) = (obj, found, Some x) →
  let q := workqueue.lift (fun _ => b) (queue (ctl s)) in
  ¬ workqueue.NumRequeues e q < maxRetries →
  processNextItem s
  = (Returns true,
     state_with (workqueue.lift (workqueue.Done e) (workqueue.Forget e q))
                (trace s ++ [givingUp e (fetchError e x); HandleError (fetchError e x)]) s).
Proof.
  intros Hg Hidx q Hn. unfold processNextItem, bind, gets. simpl. rewrite Hg.
  unfold with_queue at 1. unfold modify. simpl.
  erewrite processItem_err by exact Hidx.
  simpl. fold q. rewrite bool_decide_eq_false_2 by done.
  simpl. unfold state_with. simpl. by rewrite <- app_assoc.
Qed.

End processNextItem.

(** ** Retries *)

Section retries.

Context `{Cluster}.

Implicit Types (s : State) (e : Event).

Lemma round_retry s e n tr obj found x :
  indexer (ctl s) (key e) = (obj, found, Some x) →
  n < maxRetries →
  round (state_with (workqueue.retrying e n) tr s)
  = (Returns true,
     state_with (workqueue.retrying e (S n)) (tr ++ [willRetry e (fetchError e x)]) s).
Proof.
  intros Hidx Hn. unfold round, bind.
  erewrite processNextItem_retry;
    [| apply Get_retrying | exact Hidx
     | unfold state_with; simpl; by rewrite NumRequeues_retrying].
  unfold with_queue, modify, ret, state_with. simpl.
  by rewrite retry_step.
Qed.

Lemma round_giveup s e n tr obj found x :
  indexer (ctl s) (key e) = (obj, found, Some x) →
  ¬ n < maxRetries →
  round (state_with (workqueue.retrying e n) tr s)
  = (Returns true,
     state_with workqueue.NewRateLimitingQueue
       (tr ++ [givingUp e (fetchError e x); HandleError (fetchError e x)]) s).
Proof.
  intros Hidx Hn. unfold round, bind.
  erewrite processNextItem_giveup;
    [| apply Get_retrying | exact Hidx
     | unfold state_with; simpl; by rewrite NumRequeues_retrying].
  unfold with_queue, modify, ret, state_with. simpl.
  by rewrite forget_step, fireAll_New.
Qed.

Lemma round_ok s e n tr obj found :
  indexer (ctl s) (key e) = (obj, found, None) →
  queue (ctl (snd (round (state_with (workqueue.retrying e n) tr s))))
  = workqueue.NewRateLimitingQueue.
Proof.
  intros Hidx. unfold round, bind.
  erewrite processNextItem_ok; [| apply Get_retrying | exact Hidx].
  unfold with_queue, modify, ret, state_with. simpl.
  by rewrite forget_step, fireAll_New.
Qed.

(** With nothing pending and no delay running the worker waits. *)
Lemma round_idle s tr :
  round (state_with workqueue.NewRateLimitingQueue tr s)
  = (Waits, state_with workqueue.NewRateLimitingQueue tr s).
Proof.
  unfold round, bind. rewrite processNextItem_Waits by done.
  unfold with_queue, modify, ret, state_with. simpl. by rewrite fireAll_New.
Qed.

Lemma rounds_idle s tr m :
  rounds m (state_with workqueue.NewRateLimitingQueue tr s)
  = (tt, state_with workqueue.NewRateLimitingQueue tr s).
Proof.
  induction m as [|m IH]; [done|].
  simpl. unfold bind. rewrite round_idle. exact IH.
Qed.

Lemma rounds_retry s e obj found x k :
  indexer (ctl s) (key e) = (obj, found, Some x) →
  ∀ n tr, (n + k ≤ maxRetries)%nat →
  rounds k (state_with (workqueue.retrying e n) tr s)
  = (tt, state_with (workqueue.retrying e (n + k)%nat)
           (tr ++ repeat (willRetry e (fetchError e x)) k) s).
Proof.
  intros Hidx. induction k as [|k IH]; intros n tr Hk.
  - simpl. unfold ret. by rewrite Nat.add_0_r, app_nil_r.
  - simpl. unfold bind. erewrite round_retry; [| exact Hidx | lia].
    rewrite IH by lia. rewrite <- app_assoc. simpl.
    by rewrite Nat.add_succ_r.
Qed.

Lemma rounds_app s m n :
  snd (rounds (m + n)%nat s) = snd (rounds n (snd (rounds m s))).
Proof.
  revert s. induction m as [|m IH]; intros s; [done|].
  simpl. unfold bind. destruct (round s) as [r s']. apply IH.
Qed.

End retries.

(** ** What the handler's outcome does not do *)

(** C4, as the code has it: a handler that fails on a forwarded update
    does not make [processItem] fail; the notice is processed once and
    forgotten, nothing is requeued and no error is reported. *)
Lemma handler_failure_counterexample :
  sample.failing (ObjectUpdated (Some sample.web) (mkKbEvent "pod" "default/web" "default"))
  = Some "sink unreachable"
  ∧ fst (processItem (mkEvent "default/web" "update" "" "pod") sample.sinkDown) = None
  ∧ snd (round (snd (with_queue
                       (workqueue.lift
                          (workqueue.Add (mkEvent "default/web" "update" "" "pod")))
                       sample.sinkDown)))
    = state_with workqueue.NewRateLimitingQueue
        [Called (ObjectUpdated (Some sample.web) (mkKbEvent "pod" "default/web" "default"))
                (Some "sink unreachable")]
        sample.sinkDown.
Proof.
  split; [reflexivity | split; [reflexivity |]].
  change (snd (with_queue _ sample.sinkDown))
    with (state_with (workqueue.lift
                        (workqueue.Add (mkEvent "default/web" "update" "" "pod"))
                        workqueue.NewRateLimitingQueue) [] sample.sinkDown).
  rewrite Add_New. unfold round, bind.
  erewrite processNextItem_ok; [| apply Get_retrying | reflexivity].
  unfold with_queue, modify, ret, state_with. simpl.
  by rewrite forget_step, fireAll_New.
Qed.

(** C4, amended.  The outcome of the handler is discarded by
    [processItem]: once the store has answered, [processItem] returns no
    error whatever handler [h] the controller holds; a forwarded notice
    calls its handler operation once and a dropped one calls nothing.  The
    step of the worker then forgets the item: after it nothing is pending,
    delayed or counted as failed, and the trace holds no report besides the
    call. *)
Theorem handler_outcome_discarded `{Cluster} (s : State) (h : Handler) (e : Event)
    (obj : option Obj) (found : bool) :
  indexer (ctl s) (key e) = (obj, found, None) →
  let sh := with_eventHandler h s in
  let forwarded := forwards (pkg s) (CreationTimestamp (GetObjectMetaData obj)) e in
  let c := dispatch e obj in
  processItem e sh = (None, if forwarded then called c sh else sh)
  ∧ ∀ n tr,
      snd (round (state_with (workqueue.retrying e n) tr sh))
      = state_with workqueue.NewRateLimitingQueue
          (if forwarded then tr ++ [Called c (h c)] else tr) sh.
Proof.
  intros Hidx sh forwarded c. split.
  - by erewrite processItem_ok by exact Hidx.
  - intros n tr. unfold round, bind.
    erewrite processNextItem_ok; [| apply Get_retrying | exact Hidx].
    unfold with_queue, modify, ret, state_with. simpl.
    rewrite forget_step, fireAll_New.
    fold forwarded c. by destruct forwarded.
Qed.

Lemma handler_outcome_discarded_witness :
  processItem (mkEvent "default/web" "update" "" "pod")
    (with_eventHandler sample.failing sample.running)
  = (None,
     called (ObjectUpdated (Some sample.web) (mkKbEvent "pod" "default/web" "default"))
       (with_eventHandler sample.failing sample.running)).
Proof.
  apply (proj1 (handler_outcome_discarded sample.running sample.failing
                  (mkEvent "default/web" "update" "" "pod")
                  (Some sample.web) true eq_refl)).
Defined.

(** ** A key the store does not hold *)

(** C5, as the code has it: the store holds nothing under "default/gone"
    and says so without an error; [processItem] returns no error for an
    update notice of that key, calls the handler with a nil object, and the
    worker forgets the notice: nothing is requeued. *)
Lemma lookup_miss_counterexample :
  indexer (ctl sample.running) "default/gone" = (None, false, None)
  ∧ processItem (mkEvent "default/gone" "update" "" "pod") sample.running
    = (None,
       called (ObjectUpdated None (mkKbEvent "pod" "default/gone" "default"))
         sample.running)
  ∧ queue (ctl (snd (round (state_with
                              (workqueue.retrying
                                 (mkEvent "default/gone" "update" "" "pod") 0)
                              [] sample.running))))
    = workqueue.NewRateLimitingQueue.
Proof.
  split; [reflexivity | split; [reflexivity |]].
  by eapply round_ok.
Qed.

(** ** Coalescing *)

(** C1, as the code has it: the informer reports an update and then the
    deletion of the pod default/web before the worker takes anything; two
    notices are pending, and the first [Get] hands out the update. *)
Lemma coalescing_counterexample :
  workqueue.queue
    (workqueue.base
       (queue (ctl (snd (DeleteFunc "pod" sample.web
                           (snd (UpdateFunc "pod" sample.web sample.web
                                   sample.running)))))))
  = [mkEvent "default/web" "update" "" "pod";
     mkEvent "default/web" "delete" "default" "pod"]
  ∧ workqueue.item_of
      (workqueue.Get
         (workqueue.base
            (queue (ctl (snd (DeleteFunc "pod" sample.web
                                (snd (UpdateFunc "pod" sample.web sample.web
                                        sample.running))))))))
    = Some (mkEvent "default/web" "update" "" "pod").
Proof. split; vm_compute; reflexivity. Qed.

(** C1, amended.  The queue keeps at most one pending item per notice
    value, that is per key, kind, namespace and resource type together: in
    every state the queue reaches no notice is pending twice, and adding a
    notice equal to a pending one changes nothing (the entry that was there
    stays).  Two notices of one key that differ in kind are two items: added
    to a queue that holds neither, both are pending, in the order they were
    added. *)
Theorem coalescing_by_value (q : workqueue.Type_ Event) :
  workqueue.reachable q →
  NoDup (workqueue.queue q)
  ∧ (∀ e, e ∈ workqueue.queue q → workqueue.Add e q = q)
  ∧ (∀ a b,
       key a = key b → eventType a ≠ eventType b →
       workqueue.shuttingDown q = false →
       a ∉ workqueue.dirty q → b ∉ workqueue.dirty q →
       a ∉ workqueue.processing q → b ∉ workqueue.processing q →
       workqueue.queue (workqueue.Add b (workqueue.Add a q))
       = (workqueue.queue q ++ [a; b])%list).
Proof.
  intros Hr. pose proof (reachable_consistent q Hr) as Hc.
  split; [apply Hc | split].
  - intros e He. by apply Add_pending.
  - intros a b _ Hne Hs Had Hbd Hap Hbp.
    apply Add_Add_distinct; try done. by intros ->.
Qed.

Lemma coalescing_by_value_witness :
  NoDup (workqueue.queue
           (workqueue.Add (mkEvent "default/web" "update" "" "pod") workqueue.New)).
Proof.
  apply (proj1 (coalescing_by_value _
                  (workqueue.reach_Add (mkEvent "default/web" "update" "" "pod") _
                     workqueue.reach_New))).
Defined.

(** ** The drain loop and [Run] *)

Section run.

Context `{Cluster}.

Implicit Types (s : State) (e : Event).

Lemma Get_Got_inv y (q b : workqueue.Type_ Event) :
  workqueue.Get q = workqueue.Got y b →
  workqueue.queue q = y :: workqueue.queue b
  ∧ workqueue.dirty b = workqueue.dirty q ∖ {[y]}
  ∧ workqueue.processing b = {[y]} ∪ workqueue.processing q
  ∧ workqueue.shuttingDown b = workqueue.shuttingDown q.
Proof.
  unfold workqueue.Get. destruct (workqueue.queue q) as [|x rest].
  - by destruct (workqueue.shuttingDown q).
  - by intros [= -> <-].
Qed.

Lemma Done_after_Get y (q b : workqueue.Type_ Event) :
  workqueue.Get q = workqueue.Got y b →
  workqueue.Done y b
  = workqueue.mkType (workqueue.queue b) (workqueue.dirty q ∖ {[y]})
      (({[y]} ∪ workqueue.processing q) ∖ {[y]}) (workqueue.shuttingDown q).
Proof.
  intros (Hq & Hd & Hp & Hs)%Get_Got_inv. unfold workqueue.Done.
  rewrite bool_decide_eq_false_2 by (rewrite Hd; set_solver).
  by rewrite Hd, Hp, Hs.
Qed.

Lemma base_AddRateLimited e (q : workqueue.RateLimiting Event) :
  workqueue.base (workqueue.AddRateLimited e q) = workqueue.base q.
Proof.
  unfold workqueue.AddRateLimited, workqueue.When, workqueue.AddAfter. simpl.
  destruct (workqueue.shuttingDown (workqueue.base q)); [done|].
  rewrite bool_decide_eq_false_2; [done|].
  pose proof (backoff_pos (workqueue.NumRequeues e q)). lia.
Qed.

(** A step of the worker that gets an item returns [true]; it leaves the
    package variables alone, and of the queue it leaves what [Get] left,
    the item being done. *)
Lemma processNextItem_Got s e b :
  workqueue.Get (workqueue.base (queue (ctl s))) = workqueue.Got e b →
  ∃ s', processNextItem s = (Returns true, s')
        ∧ pkg s' = pkg s
        ∧ workqueue.base (queue (ctl s')) = workqueue.Done e b.
Proof.
  intros Hg.
  destruct (indexer (ctl s) (key e)) as [[obj found] [x|]] eqn:Hidx.
  - destruct (decide (workqueue.NumRequeues e
                        (workqueue.lift (fun _ => b) (queue (ctl s))) < maxRetries)).
    + eexists. split; [by eapply processNextItem_retry|].
      split; [done|]. simpl. by rewrite base_AddRateLimited.
    + eexists. split; [by eapply processNextItem_giveup|]. done.
  - eexists. split; [by eapply processNextItem_ok|]. done.
Qed.

Lemma processNextItem_pkg s : pkg (snd (processNextItem s)) = pkg s.
Proof.
  destruct (workqueue.Get (workqueue.base (queue (ctl s)))) as [e b| |] eqn:Hg.
  - destruct (processNextItem_Got s e b Hg) as (s' & -> & Hp & _). done.
  - by rewrite processNextItem_Shutdown.
  - by rewrite processNextItem_Waits.
Qed.

Lemma runWorker_pkg fuel s : pkg (snd (runWorker fuel s)) = pkg s.
Proof.
  revert s. induction fuel as [|fuel IH]; intros s; [done|].
  simpl. unfold bind. pose proof (processNextItem_pkg s) as Hp.
  destruct (processNextItem s) as [[[|]|] s']; simpl in *; [|done..].
  by rewrite IH.
Qed.

Lemma Until_pkg fuel (f : M Status) stopCh i s :
  (∀ s, pkg (snd (f s)) = pkg s) →
  pkg (snd (Until fuel f stopCh i s)) = pkg s.
Proof.
  intros Hf. revert i s. induction fuel as [|fuel IH]; intros i s; [done|].
  simpl. destruct (stopCh i); [done|]. unfold bind.
  pose proof (Hf s) as Hp. destruct (f s) as [[| |] s']; simpl in *; [|done..].
  destruct (stopCh (S i)); [done|]. by rewrite IH.
Qed.

(** [Run] writes the package's start time and nothing else of the
    package. *)
Lemma Run_pkg now synced stopCh fuel s :
  pkg (snd (Run now synced stopCh fuel s))
  = mkPackage now (global (pkg s)) (create (pkg s)) (delete_ (pkg s)) (update (pkg s)).
Proof.
  unfold Run, bind, emit, set_serverStartTime, modify. simpl.
  destruct synced; simpl.
  - match goal with
    | |- context [Until fuel ?f stopCh 0 ?s0] =>
        pose proof (Until_pkg fuel f stopCh 0 s0 (runWorker_pkg fuel)) as Hp;
        destruct (Until fuel f stopCh 0 s0) as [[| |] s']
    end; simpl in *; by rewrite Hp.
  - done.
Qed.





End run.




(** ** The start time *)

(** C6, as the code has it: the first subscription's [Run] began at time
    10 and a pod created at time 15 is reported to it.  Alone, it calls the
    create handler; once the second subscription's [Run] has begun at time
    20, the same notice in the first subscription calls nothing. *)
Lemma start_time_counterexample :
  calls (trace (snd (runWorker 3 (snd (AddFunc "pod" sample.mid sample.firstRuns)))))
  = [ObjectCreated (Some sample.mid)]
  ∧ calls (trace (snd (runWorker 3
                         (snd (AddFunc "pod" sample.mid
                                 (switch_to (ctl sample.firstRuns) sample.secondRuns))))))
    = [].
Proof. split; vm_compute; reflexivity. Qed.

(** C6, amended.  The start time is one variable of the package,
    shared by all subscriptions: the [Run] of any controller overwrites it
    with its own beginning, however [Run] goes on.  A create notice that
    controller [c] processes afterwards is suppressed against that time,
    the start of the controller whose [Run] began last: it is forwarded
    exactly when the object was created after it and the resource type is
    in the Global or the Create filter set. *)
Theorem shared_start_time `{Cluster} (s : State) (now : time.Time) (synced : bool)
    (stopCh : nat → bool) (fuel : nat) (c : Controller) (e : Event)
    (obj : option Obj) (found : bool) :
  eventType e = "create" →
  indexer c (key e) = (obj, found, None) →
  let s' := switch_to c (snd (Run now synced stopCh fuel s)) in
  serverStartTime (pkg s') = now
  ∧ processItem e s'
    = (None,
       if bool_decide (now < CreationTimestamp (GetObjectMetaData obj))%Z
          && (has (global (pkg s)) (resourceType e)
              || has (create (pkg s)) (resourceType e))
       then called (ObjectCreated obj) s' else s').
Proof.
  intros Hc Hidx s'.
  assert (Hp : pkg s' = mkPackage now (global (pkg s)) (create (pkg s))
                          (delete_ (pkg s)) (update (pkg s))).
  { subst s'. simpl. apply Run_pkg. }
  split; [by rewrite Hp|].
  rewrite (processItem_ok s' e obj found) by done.
  unfold forwards, dispatch. rewrite Hc, Hp. reflexivity.
Qed.

Lemma shared_start_time_witness :
  serverStartTime (pkg (switch_to (ctl sample.firstRuns) sample.secondRuns)) = 20%Z.
Proof.
  apply (proj1 (shared_start_time (switch_to sample.second sample.firstRuns) 20 true
                  sample.open 3 (ctl sample.firstRuns)
                  (mkEvent "default/mid" "create" "" "pod")
                  (Some sample.mid) true eq_refl eq_refl)).
Defined.

(** ** The namespace of the envelope *)

Lemma Split_hd (s : string) (sep : ascii) :
  hd "" (strings.Split s sep) = strings.before sep s.
Proof.
  induction s as [|c r IH]; simpl; [done|].
  destruct (Ascii.eqb c sep); [done|].
  destruct (strings.Split r sep); simpl in *; by rewrite <- IH.
Qed.

Lemma before_no_sep (s : string) (sep : ascii) :
  strings.contains sep s = false → strings.before sep s = s.
Proof.
  induction s as [|c r IH]; simpl; [done|].
  destruct (Ascii.eqb c sep); simpl; [done|]. intros Hr. by rewrite IH.
Qed.

(** A notice whose namespace field is empty is forwarded with the part of
    its key before the first '/' as the namespace of the envelope; for a
    key without '/', that is the key itself, the object's name. *)
Theorem namespace_fallback `{Cluster} (s : State) (e : Event)
    (obj : option Obj) (found : bool) :
  indexer (ctl s) (key e) = (obj, found, None) →
  namespace e = "" →
  let kb := mkKbEvent (resourceType e) (key e) (strings.before "/" (key e)) in
  (strings.contains "/" (key e) = false → kbNamespace kb = key e)
  ∧ (eventType e = "update" →
     has (global (pkg s)) (resourceType e) = true
     ∨ has (update (pkg s)) (resourceType e) = true →
     processItem e s = (None, called (ObjectUpdated obj kb) s))
  ∧ (eventType e = "delete" →
     has (global (pkg s)) (resourceType e) = true
     ∨ has (delete_ (pkg s)) (resourceType e) = true →
     processItem e s = (None, called (ObjectDeleted kb) s)).
Proof.
  intros Hidx Hns kb.
  assert (Hkb : envelope e = kb).
  { unfold envelope, envelope_namespace. by rewrite Hns, Split_hd. }
  split; [apply before_no_sep | split]; intros Ht Hin;
    rewrite (processItem_ok _ _ _ _ Hidx); unfold forwards, dispatch;
    rewrite Ht, Hkb; simpl;
    by destruct Hin as [-> | ->]; rewrite ?orb_true_r.
Qed.

Lemma namespace_fallback_witness :
  processItem (mkEvent "default/web" "update" "" "pod") sample.running
  = (None,
     called (ObjectUpdated (Some sample.web) (mkKbEvent "pod" "default/web" "default"))
       sample.running).
Proof.
  apply (proj1 (proj2 (namespace_fallback sample.running
                         (mkEvent "default/web" "update" "" "pod")
                         (Some sample.web) true eq_refl eq_refl))
           eq_refl).
  left. reflexivity.
Defined.

(** C9, at the input where the code leaves it.  The three callbacks fill
    one shared [newEvent]; only [DeleteFunc] assigns its namespace.  After
    the deletion of prod/a, the update of dev/b is queued with the namespace
    "prod" still in the variable, so the namespace field of this update
    notice is not empty and its envelope says "prod", not the "dev" of its
    key. *)
Lemma stale_namespace :
  workqueue.queue
    (workqueue.base
       (queue (ctl (snd (UpdateFunc "pod" sample.b sample.b
                           (snd (DeleteFunc "pod" sample.a sample.watching)))))))
  = [mkEvent "prod/a" "delete" "prod" "pod"; mkEvent "dev/b" "update" "prod" "pod"]
  ∧ calls (trace (snd (processItem (mkEvent "dev/b" "update" "prod" "pod")
                         sample.watching)))
    = [ObjectUpdated (Some sample.b) (mkKbEvent "pod" "dev/b" "prod")].
Proof. split; vm_compute; reflexivity. Qed.


(** ** Further properties *)

(** A directional filter set forwards its own kind only: with "pod" in
    the Update set and in no other, an update notice for a pod calls the
    update handler and a create notice for a pod calls nothing. *)
Theorem directional_filter `{Cluster} (s : State) (e : Event)
    (obj : option Obj) (found : bool) :
  indexer (ctl s) (key e) = (obj, found, None) →
  resourceType e = "pod" →
  global (pkg s) = ∅ → create (pkg s) = ∅ → update (pkg s) = load ["pod"] →
  (eventType e = "update" →
   processItem e s = (None, called (ObjectUpdated obj (envelope e)) s))
  ∧ (eventType e = "create" → processItem e s = (None, s)).
Proof.
  intros Hidx Hr Hg Hc Hu. rewrite (processItem_ok _ _ _ _ Hidx).
  unfold forwards, dispatch. rewrite Hr, Hg, Hc, Hu.
  split; intros ->; simpl; [done|].
  by rewrite andb_false_r.
Qed.

Lemma directional_filter_witness :
  processItem (mkEvent "default/web" "create" "" "pod") sample.updatesOnly
  = (None, sample.updatesOnly).
Proof.
  apply (proj2 (directional_filter sample.updatesOnly
                  (mkEvent "default/web" "create" "" "pod")
                  (Some sample.web) true eq_refl eq_refl eq_refl eq_refl eq_refl)).
  reflexivity.
Defined.

(** No item is handed out twice at a time: in every state the queue
    reaches, the item [Get] hands out is not among those being processed,
    and it stays out of the pending ones until its [Done]. *)
Theorem one_worker_per_item (q q' : workqueue.Type_ Event) (e : Event) :
  workqueue.reachable q →
  workqueue.Get q = workqueue.Got e q' →
  (e ∉ workqueue.processing q)
  ∧ (e ∈ workqueue.processing q')
  ∧ (e ∉ workqueue.queue q')
  ∧ workqueue.queue (workqueue.Add e q') = workqueue.queue q'.
Proof.
  intros Hr Hg.
  pose proof (reachable_consistent q Hr) as [Hnd Hq].
  unfold workqueue.Get in Hg.
  destruct (workqueue.queue q) as [|x rest] eqn:E;
    [by destruct (workqueue.shuttingDown q)|].
  injection Hg as -> <-. simpl.
  apply NoDup_cons in Hnd as [Hnotin _].
  destruct (Hq e) as [_ Hp]; [left|].
  split; [done|].
  split; [set_solver|].
  split; [done|].
  unfold workqueue.Add. simpl.
  destruct (workqueue.shuttingDown q); [done|].
  case_bool_decide; [done|].
  rewrite bool_decide_eq_true_2; [done | set_solver].
Qed.

Lemma one_worker_per_item_witness :
  mkEvent "default/web" "update" "" "pod"
  ∉ workqueue.processing
      (workqueue.Add (mkEvent "default/web" "update" "" "pod") workqueue.New).
Proof.
  apply (proj1 (one_worker_per_item _ _ (mkEvent "default/web" "update" "" "pod")
                  (workqueue.reach_Add (mkEvent "default/web" "update" "" "pod") _
                     workqueue.reach_New)
                  eq_refl)).
Defined.

(** ** The configuration *)

Lemma eqb_or_elem_of (s k : string) (l : list string) :
  String.eqb s k || bool_decide (k ∈ l) = bool_decide (k ∈ s :: l).
Proof.
  destruct (String.eqb_spec s k) as [-> | Hne]; simpl.
  - symmetry. apply bool_decide_eq_true. left.
  - apply bool_decide_ext. rewrite elem_of_cons. split; [auto|].
    intros [-> | Hin]; [done | done].
Qed.

(** The loop of [configureEvents] sets a flag exactly when its name is in
    the list; flags that are set stay set. *)
Lemma foldl_configureEvent (l : list string) (r : config.Resource) :
  foldl config.configureEvent r l
  = {| config.Deployment := config.Deployment r || bool_decide ("deployment" ∈ l);
       config.ReplicationController :=
         config.ReplicationController r || bool_decide ("replicationcontroller" ∈ l);
       config.ReplicaSet := config.ReplicaSet r || bool_decide ("replicaset" ∈ l);
       config.DaemonSet := config.DaemonSet r || bool_decide ("daemonset" ∈ l);
       config.Service := config.Service r || bool_decide ("service" ∈ l);
       config.Pod := config.Pod r || bool_decide ("pod" ∈ l);
       config.Job := config.Job r || bool_decide ("job" ∈ l);
       config.PersistentVolume :=
         config.PersistentVolume r || bool_decide ("persistentvolume" ∈ l);
       config.Namespace := config.Namespace r || bool_decide ("namespace" ∈ l);
       config.Secret := config.Secret r || bool_decide ("secret" ∈ l);
       config.ConfigMap := config.ConfigMap r || bool_decide ("configmap" ∈ l);
       config.Ingress := config.Ingress r || bool_decide ("ingress" ∈ l) |}.
Proof.
  revert r. induction l as [|s l IH]; intros r.
  - destruct r. simpl.
    rewrite ?(bool_decide_eq_false_2 (_ ∈ [])) by apply not_elem_of_nil.
    by rewrite ?orb_false_r.
  - simpl. rewrite IH. unfold config.configureEvent. simpl.
    by rewrite <- !orb_assoc, !eqb_or_elem_of.
Qed.

Lemma bool_decide_elem_of_app (k : string) (l1 l2 : list string) :
  bool_decide (k ∈ l1) || bool_decide (k ∈ l2) = bool_decide (k ∈ (l1 ++ l2)%list).
Proof.
  destruct (decide (k ∈ l1)) as [H1 | H1].
  - rewrite (bool_decide_eq_true_2 _ H1). simpl. symmetry.
    apply bool_decide_eq_true. apply elem_of_app. by left.
  - rewrite (bool_decide_eq_false_2 _ H1). simpl.
    apply bool_decide_ext. rewrite elem_of_app. tauto.
Qed.

(** Without a Resource block, [UnmarshallConfig] derives the flags from
    the four event lists: a kind is watched exactly when its name stands in
    one of them.  The lists and the namespaces are left as they are. *)
Theorem events_config_sets_flags (c : config.Config) :
  config.cResource c = config.Resource_zero →
  let c' := config.UnmarshallConfig c in
  let names := (config.Global (config.cEvent c) ++ config.Create (config.cEvent c)
                ++ config.Update (config.cEvent c) ++ config.Delete (config.cEvent c))%list in
  config.cEvent c' = config.cEvent c
  ∧ config.cNamespace c' = config.cNamespace c
  ∧ config.cResource c'
    = {| config.Deployment := bool_decide ("deployment" ∈ names);
         config.ReplicationController := bool_decide ("replicationcontroller" ∈ names);
         config.ReplicaSet := bool_decide ("replicaset" ∈ names);
         config.DaemonSet := bool_decide ("daemonset" ∈ names);
         config.Service := bool_decide ("service" ∈ names);
         config.Pod := bool_decide ("pod" ∈ names);
         config.Job := bool_decide ("job" ∈ names);
         config.PersistentVolume := bool_decide ("persistentvolume" ∈ names);
         config.Namespace := bool_decide ("namespace" ∈ names);
         config.Secret := bool_decide ("secret" ∈ names);
         config.ConfigMap := bool_decide ("configmap" ∈ names);
         config.Ingress := bool_decide ("ingress" ∈ names) |}.
Proof.
  intros Hz c' names.
  assert (Hc : c' = config.configureEvents
                      (config.configureEvents
                         (config.configureEvents
                            (config.configureEvents c (config.Global (config.cEvent c)))
                            (config.Create (config.cEvent c)))
                         (config.Update (config.cEvent c)))
                      (config.Delete (config.cEvent c))).
  { subst c'. unfold config.UnmarshallConfig.
    rewrite bool_decide_eq_false_2; [done | by intros []]. }
  rewrite Hc. split; [done | split; [done|]].
  unfold config.configureEvents. simpl.
  rewrite !foldl_configureEvent, Hz. simpl. subst names.
  by rewrite <- !bool_decide_elem_of_app, !orb_assoc.
Qed.

Lemma appendIf_app (flag : bool) (name : string) (g l : list string) :
  config.appendIf flag name (g ++ l) = (g ++ config.appendIf flag name l)%list.
Proof. unfold config.appendIf. destruct flag; [by rewrite app_assoc | done]. Qed.

Lemma resourceGlobals_app (r : config.Resource) (g : list string) :
  config.resourceGlobals r g = (g ++ config.resourceGlobals r [])%list.
Proof.
  unfold config.resourceGlobals. rewrite <- (app_nil_r g) at 1.
  by rewrite !appendIf_app.
Qed.

Lemma appendIf_sublist (flag : bool) (name : string) (l k : list string) :
  l `sublist_of` k → config.appendIf flag name l `sublist_of` (k ++ [name])%list.
Proof.
  intros Hs. unfold config.appendIf. destruct flag.
  - by apply sublist_app.
  - by apply sublist_inserts_r.
Qed.

Lemma resourceGlobals_NoDup (r : config.Resource) :
  NoDup (config.resourceGlobals r []).
Proof.
  assert (Hs : config.resourceGlobals r []
               `sublist_of` config.resourceGlobals
                              (config.mkResource true true true true true true
                                                 true true true true true true) []).
  { unfold config.resourceGlobals. do 12 apply appendIf_sublist. done. }
  revert Hs. apply sublist_NoDup.
  unfold config.resourceGlobals, config.appendIf. simpl.
  repeat (apply NoDup_cons; split;
          [rewrite ?elem_of_cons, elem_of_nil; intuition discriminate|]).
  apply NoDup_nil_2.
Qed.

Lemma resourceGlobals_empty (r : config.Resource) :
  config.resourceGlobals r [] = [] → r = config.Resource_zero.
Proof.
  intros He.
  assert (Hk : ∀ k, k ∉ config.resourceGlobals r []).
  { intros k. rewrite He. apply not_elem_of_nil. }
  destruct r as [b1 b2 b3 b4 b5 b6 b7 b8 b9 b10 b11 b12].
  unfold config.Resource_zero.
  f_equal;
    match goal with
    | |- ?b = false =>
        destruct b eqn:Hb; [exfalso | done]
    end.
  - apply (Hk "deployment"), elem_of_resourceGlobals. simpl. tauto.
  - apply (Hk "replicationcontroller"), elem_of_resourceGlobals. simpl. tauto.
  - apply (Hk "replicaset"), elem_of_resourceGlobals. simpl. tauto.
  - apply (Hk "demonset"), elem_of_resourceGlobals. simpl. tauto.
  - apply (Hk "service"), elem_of_resourceGlobals. simpl. tauto.
  - apply (Hk "pod"), elem_of_resourceGlobals. simpl. tauto.
  - apply (Hk "job"), elem_of_resourceGlobals. simpl. tauto.
  - apply (Hk "persistentvolume"), elem_of_resourceGlobals. simpl. tauto.
  - apply (Hk "namespace"), elem_of_resourceGlobals. simpl. tauto.
  - apply (Hk "secret"), elem_of_resourceGlobals. simpl. tauto.
  - apply (Hk "configmap"), elem_of_resourceGlobals. simpl. tauto.
  - apply (Hk "ingress"), elem_of_resourceGlobals. simpl. tauto.
Qed.

(** With a Resource block, [UnmarshallConfig] only appends to
    [Event.Global]: the configured entries stay in front, and behind them
    come the names of the set flags, at least one and none twice.  The
    flags, the namespaces and the Create, Update and Delete lists are left
    as they are. *)
Theorem resource_block_appends (c : config.Config) :
  config.cResource c ≠ config.Resource_zero →
  let c' := config.UnmarshallConfig c in
  let added := config.resourceGlobals (config.cResource c) [] in
  config.Global (config.cEvent c') = (config.Global (config.cEvent c) ++ added)%list
  ∧ added ≠ []
  ∧ NoDup added
  ∧ config.cResource c' = config.cResource c
  ∧ config.cNamespace c' = config.cNamespace c
  ∧ config.Create (config.cEvent c') = config.Create (config.cEvent c)
  ∧ config.Update (config.cEvent c') = config.Update (config.cEvent c)
  ∧ config.Delete (config.cEvent c') = config.Delete (config.cEvent c).
Proof.
  intros Hne c' added. subst c'. unfold config.UnmarshallConfig.
  rewrite bool_decide_eq_true_2 by done. simpl.
  split; [apply resourceGlobals_app|].
  split; [intros He; by apply Hne, resourceGlobals_empty|].
  split; [apply resourceGlobals_NoDup | done].
Qed.

Lemma resource_block_appends_witness :
  config.Global (config.cEvent (config.UnmarshallConfig sample.onlyDaemonSets))
  = ([] ++ ["demonset"])%list.
Proof.
  apply (proj1 (resource_block_appends sample.onlyDaemonSets ltac:(discriminate))).
Defined.

Lemma events_config_sets_flags_witness :
  config.cEvent (config.UnmarshallConfig
                   (config.mkConfig config.Resource_zero []
                      (config.mkEvent [] [] ["pod"] [])))
  = config.mkEvent [] [] ["pod"] [].
Proof.
  apply (proj1 (events_config_sets_flags
                  (config.mkConfig config.Resource_zero []
                     (config.mkEvent [] [] ["pod"] []))
                  eq_refl)).
Defined.

(** ** The controllers [Start] creates *)

Lemma Start_namespaces_nonempty (conf : config.Config) :
  Start_namespaces conf ≠ [].
Proof.
  unfold Start_namespaces. case_bool_decide as Hl.
  - by destruct (config.cNamespace conf).
  - by destruct (config.cNamespace conf).
Qed.

Lemma elem_of_perIteration (rt : string) (nss : list string) (sub : Subscription) :
  sub ∈ perIteration rt nss →
  subType sub = rt
  ∧ subNamespaces sub ≠ []
  ∧ subNamespaces sub `suffix_of` nss.
Proof.
  induction nss as [|ns rest IH]; simpl; [by intros ?%elem_of_nil|].
  intros [-> | Hin]%elem_of_cons.
  - simpl. split; [done|]. split; [done|]. by exists [].
  - destruct (IH Hin) as (Ht & Hne & Hs). split; [done|]. split; [done|].
    by apply suffix_cons_r.
Qed.

Lemma elem_of_perNamespace_types (flag : bool) (rt : string) (nss : list string)
    (k : string) :
  nss ≠ [] →
  k ∈ subType <$> perNamespace flag rt nss ↔ flag = true ∧ k = rt.
Proof.
  intros Hn. unfold perNamespace. destruct flag.
  - split.
    + intros (sub & -> & Hin)%list_elem_of_fmap.
      by destruct (elem_of_perIteration _ _ _ Hin) as [-> _].
    + intros [_ ->]. destruct nss as [|ns nss]; [done|]. simpl. left.
  - simpl. split; [by intros ?%elem_of_nil | by intros [? _]].
Qed.

Lemma elem_of_once_types (flag : bool) (rt : string) (k : string) :
  k ∈ subType <$> once flag rt ↔ flag = true ∧ k = rt.
Proof.
  unfold once. destruct flag; simpl.
  - rewrite list_elem_of_singleton. tauto.
  - split; [by intros ?%elem_of_nil | by intros [? _]].
Qed.

(** The resource types of the controllers [Start] creates: one of its
    twelve literals for every flag that is set. *)
Lemma elem_of_Start_types (conf : config.Config) (k : string) :
  k ∈ subType <$> Start conf ↔
  (config.Pod (config.cResource conf) = true ∧ k = "pod")
  ∨ (config.DaemonSet (config.cResource conf) = true ∧ k = "daemonset")
  ∨ (config.ReplicaSet (config.cResource conf) = true ∧ k = "replicaset")
  ∨ (config.Service (config.cResource conf) = true ∧ k = "service")
  ∨ (config.Deployment (config.cResource conf) = true ∧ k = "deployment")
  ∨ (config.Namespace (config.cResource conf) = true ∧ k = "namespace")
  ∨ (config.ReplicationController (config.cResource conf) = true
     ∧ k = "replication controller")
  ∨ (config.Job (config.cResource conf) = true ∧ k = "job")
  ∨ (config.PersistentVolume (config.cResource conf) = true
     ∧ k = "persistent volume")
  ∨ (config.Secret (config.cResource conf) = true ∧ k = "secret")
  ∨ (config.ConfigMap (config.cResource conf) = true ∧ k = "configmap")
  ∨ (config.Ingress (config.cResource conf) = true ∧ k = "ingress").
Proof.
  unfold Start. rewrite !fmap_app, !elem_of_app.
  rewrite !elem_of_once_types.
  rewrite !(elem_of_perNamespace_types _ _ _ _ (Start_namespaces_nonempty conf)).
  tauto.
Qed.

(** A configuration by Resource block alone (no Global list of its own):
    of the controllers [Start] then runs, those for daemonsets, replication
    controllers and persistent volumes find their resource type missing in
    the Global map that [UnmarshallConfig] and [loadEventConfig] build, all
    others find theirs.  The three kinds are named "demonset",
    "replicationcontroller" and "persistentvolume" in the configuration and
    "daemonset", "replication controller" and "persistent volume" in
    [Start]. *)
Theorem resource_block_forwards `{Cluster} (c : config.Config) (s : State) :
  config.cResource c ≠ config.Resource_zero →
  config.Global (config.cEvent c) = [] →
  let c' := config.UnmarshallConfig c in
  let s' := snd (loadEventConfig c' s) in
  ∀ rt, rt ∈ subType <$> Start c' →
    (has (global (pkg s')) rt = true
     ↔ rt ≠ "daemonset" ∧ rt ≠ "replication controller" ∧ rt ≠ "persistent volume").
Proof.
  intros Hne Hg c' s' rt Hrt.
  destruct (resource_block_appends c Hne) as (HG & Hadd & _ & Hr & _).
  fold c' in HG, Hr. rewrite Hg in HG. simpl in HG.
  assert (Hl : global (pkg s') = load (config.Global (config.cEvent c'))).
  { subst s'. unfold loadEventConfig, modify. simpl.
    rewrite bool_decide_eq_true_2; [done|].
    rewrite HG. destruct (config.resourceGlobals (config.cResource c) []);
      [done | simpl; lia]. }
  rewrite Hl, has_load, HG, elem_of_resourceGlobals.
  apply elem_of_Start_types in Hrt. rewrite Hr in Hrt.
  rewrite elem_of_nil.
  split.
  - intros Hin. repeat split; intros ->;
      repeat (destruct Hin as [Hin | Hin]; [by (done || destruct Hin)|]);
      by destruct Hin.
  - intros (H1 & H2 & H3).
    repeat (destruct Hrt as [Hrt | Hrt];
            [destruct Hrt as [Hf ->]; (done || tauto)|]).
    destruct Hrt as [Hf ->]. tauto.
Qed.

Lemma resource_block_forwards_witness :
  has (global (pkg (snd (loadEventConfig
                           (config.UnmarshallConfig sample.onlyDaemonSets)
                           sample.running))))
      "daemonset" = true
  ↔ "daemonset" ≠ "daemonset" ∧ "daemonset" ≠ "replication controller"
    ∧ "daemonset" ≠ "persistent volume".
Proof.
  apply (resource_block_forwards sample.onlyDaemonSets sample.running
           ltac:(discriminate) eq_refl "daemonset").
  apply elem_of_Start_types. right. left. split; reflexivity.
Defined.

(** A configuration by event lists alone: [Start] runs a controller for
    replication controllers exactly when "replicationcontroller" is listed,
    and one for persistent volumes exactly when "persistentvolume" is, each
    under a resource type written with a space; for the ten other kinds the
    listed name is the resource type of the controller. *)
Theorem events_config_starts_listed (c : config.Config) :
  config.cResource c = config.Resource_zero →
  let types := subType <$> Start (config.UnmarshallConfig c) in
  let names := (config.Global (config.cEvent c) ++ config.Create (config.cEvent c)
                ++ config.Update (config.cEvent c) ++ config.Delete (config.cEvent c))%list in
  ("replication controller" ∈ types ↔ "replicationcontroller" ∈ names)
  ∧ ("persistent volume" ∈ types ↔ "persistentvolume" ∈ names)
  ∧ ("replicationcontroller" ∉ types)
  ∧ ("persistentvolume" ∉ types)
  ∧ ∀ k, k ∈ ["pod"; "daemonset"; "replicaset"; "service"; "deployment";
               "namespace"; "job"; "secret"; "configmap"; "ingress"] →
         (k ∈ types ↔ k ∈ names).
Proof.
  intros Hz types names.
  destruct (events_config_sets_flags c Hz) as (_ & _ & Hr). fold names in Hr.
  assert (Ht : ∀ k, k ∈ types ↔
            (bool_decide ("pod" ∈ names) = true ∧ k = "pod")
            ∨ (bool_decide ("daemonset" ∈ names) = true ∧ k = "daemonset")
            ∨ (bool_decide ("replicaset" ∈ names) = true ∧ k = "replicaset")
            ∨ (bool_decide ("service" ∈ names) = true ∧ k = "service")
            ∨ (bool_decide ("deployment" ∈ names) = true ∧ k = "deployment")
            ∨ (bool_decide ("namespace" ∈ names) = true ∧ k = "namespace")
            ∨ (bool_decide ("replicationcontroller" ∈ names) = true
               ∧ k = "replication controller")
            ∨ (bool_decide ("job" ∈ names) = true ∧ k = "job")
            ∨ (bool_decide ("persistentvolume" ∈ names) = true
               ∧ k = "persistent volume")
            ∨ (bool_decide ("secret" ∈ names) = true ∧ k = "secret")
            ∨ (bool_decide ("configmap" ∈ names) = true ∧ k = "configmap")
            ∨ (bool_decide ("ingress" ∈ names) = true ∧ k = "ingress")).
  { intros k. subst types. rewrite elem_of_Start_types, Hr. simpl. reflexivity. }
  setoid_rewrite bool_decide_eq_true in Ht.
  split; [|split; [|split; [|split]]].
  - rewrite Ht. intuition discriminate.
  - rewrite Ht. intuition discriminate.
  - rewrite Ht. intuition discriminate.
  - rewrite Ht. intuition discriminate.
  - intros k Hk. rewrite Ht.
    rewrite !elem_of_cons, elem_of_nil in Hk.
    intuition (subst; try discriminate; auto 20).
Qed.

Lemma events_config_starts_listed_witness :
  "replication controller"
  ∈ subType <$> Start (config.UnmarshallConfig
                         (config.mkConfig config.Resource_zero []
                            (config.mkEvent ["replicationcontroller"] [] [] [])))
  ↔ "replicationcontroller" ∈ (["replicationcontroller"] ++ [] ++ [] ++ [])%list.
Proof.
  apply (proj1 (events_config_starts_listed
                  (config.mkConfig config.Resource_zero []
                     (config.mkEvent ["replicationcontroller"] [] [] []))
                  eq_refl)).
Defined.

(** ** Settings from the environment *)

Lemma orEnv_idem (env : gmap string string) (flag : bool) (name : string) :
  config.orEnv env (config.orEnv env flag name) name = config.orEnv env flag name.
Proof. unfold config.orEnv. by destruct flag, (String.eqb _ "true"). Qed.

Lemma orElseEnv_idem (env : gmap string string) (field name : string) :
  config.orElseEnv env (config.orElseEnv env field name) name
  = config.orElseEnv env field name.
Proof.
  unfold config.orElseEnv.
  destruct (String.eqb field "") eqn:Hf,
           (String.eqb (config.Getenv env name) "") eqn:He; simpl;
    rewrite ?Hf, ?He; simpl; done.
Qed.

Lemma orElseEnv_set (env : gmap string string) (field name : string) :
  field ≠ "" → config.orElseEnv env field name = field.
Proof.
  intros Hne. unfold config.orElseEnv.
  by destruct (String.eqb_spec field "").
Qed.

(** [CheckMissingResourceEnvvars] fills gaps only.  A flag that the
    configuration sets stays set and a Slack token or channel that it gives
    is kept, whatever the environment says; the event lists and namespaces
    are not touched; an environment without any of the variables changes
    nothing; and running the check a second time changes nothing. *)
Theorem env_fills_gaps (env : gmap string string) (c : config.Settings) :
  let c' := config.CheckMissingResourceEnvvars env c in
  config.CheckMissingResourceEnvvars env c' = c'
  ∧ Forall (fun flag : config.Resource → bool =>
              flag (config.cResource (config.sConfig c)) = true →
              flag (config.cResource (config.sConfig c')) = true)
           [config.Deployment; config.ReplicationController; config.ReplicaSet;
            config.DaemonSet; config.Service; config.Pod; config.Job;
            config.PersistentVolume; config.Namespace; config.Secret;
            config.ConfigMap; config.Ingress]
  ∧ (config.Token (config.sSlack c) ≠ "" →
     config.Token (config.sSlack c') = config.Token (config.sSlack c))
  ∧ (config.Channel (config.sSlack c) ≠ "" →
     config.Channel (config.sSlack c') = config.Channel (config.sSlack c))
  ∧ config.cEvent (config.sConfig c') = config.cEvent (config.sConfig c)
  ∧ config.cNamespace (config.sConfig c') = config.cNamespace (config.sConfig c)
  ∧ (env = ∅ → c' = c).
Proof.
  intros c'. subst c'. unfold config.CheckMissingResourceEnvvars.
  split; [|split; [|split; [|split; [|split; [|split]]]]]; simpl.
  - by rewrite !orEnv_idem, !orElseEnv_idem.
  - repeat (apply Forall_cons; split;
            [unfold config.orEnv; by intros -> |]).
    apply Forall_nil_2.
  - apply orElseEnv_set.
  - apply orElseEnv_set.
  - done.
  - done.
  - intros ->. unfold config.orEnv, config.orElseEnv, config.Getenv.
    rewrite !lookup_empty. simpl. rewrite !andb_false_r, !orb_false_r.
    by destruct c as [[] [[] ? ?]].
Qed.

(** ** What the callbacks and the worker keep *)

Section keeps.

Context `{Cluster}.

Implicit Types (s : State) (e : Event).

Lemma Add_idem e (q : workqueue.Type_ Event) :
  workqueue.Add e (workqueue.Add e q) = workqueue.Add e q.
Proof.
  destruct (workqueue.shuttingDown q) eqn:Hs.
  { assert (Hq : workqueue.Add e q = q) by (unfold workqueue.Add; by rewrite Hs).
    by rewrite !Hq. }
  destruct (decide (e ∈ workqueue.dirty q)) as [Hd | Hd].
  { assert (Hq : workqueue.Add e q = q).
    { unfold workqueue.Add. by rewrite Hs, bool_decide_eq_true_2. }
    by rewrite !Hq. }
  assert (Hq : workqueue.shuttingDown (workqueue.Add e q) = false
               ∧ e ∈ workqueue.dirty (workqueue.Add e q)).
  { unfold workqueue.Add. rewrite Hs, (bool_decide_eq_false_2 _ Hd).
    case_bool_decide; simpl; split; (done || set_solver). }
  destruct Hq as [Hs' Hd'].
  unfold workqueue.Add at 1. by rewrite Hs', bool_decide_eq_true_2.
Qed.

Lemma Get_Got_processing e (q b : workqueue.Type_ Event) :
  workqueue.Get q = workqueue.Got e b → e ∈ workqueue.processing b.
Proof.
  unfold workqueue.Get. destruct (workqueue.queue q).
  - by destruct (workqueue.shuttingDown q).
  - intros [= -> <-]. simpl. set_solver.
Qed.

(** What a callback does to the state, by the outcome of its key
    function: [newEvent] and [err] are overwritten, one line is logged, and
    the notice is added only if there was no error. *)
Lemma AddFunc_eq rt obj s :
  AddFunc rt obj s
  = let '(k, x) := MetaNamespaceKeyFunc obj in
    let ev := mkEvent k "create" (namespace (newEvent (ctl s))) rt in
    (tt, mkState (pkg s)
           (mkController
              (match x with
               | None => workqueue.lift (workqueue.Add ev) (queue (ctl s))
               | Some _ => queue (ctl s)
               end)
              (indexer (ctl s)) (eventHandler (ctl s)) ev x)
           (trace s ++ [Info ("Processing add to " +:+ rt +:+ ": " +:+ k)])).
Proof.
  unfold AddFunc. destruct (MetaNamespaceKeyFunc obj) as [k [x|]]; reflexivity.
Qed.

Lemma UpdateFunc_eq rt old new s :
  UpdateFunc rt old new s
  = let '(k, x) := MetaNamespaceKeyFunc old in
    let ev := mkEvent k "update" (namespace (newEvent (ctl s))) rt in
    (tt, mkState (pkg s)
           (mkController
              (match x with
               | None => workqueue.lift (workqueue.Add ev) (queue (ctl s))
               | Some _ => queue (ctl s)
               end)
              (indexer (ctl s)) (eventHandler (ctl s)) ev x)
           (trace s ++ [Info ("Processing update to " +:+ rt +:+ ": " +:+ k)])).
Proof.
  unfold UpdateFunc. destruct (MetaNamespaceKeyFunc old) as [k [x|]]; reflexivity.
Qed.

Lemma DeleteFunc_eq rt obj s :
  DeleteFunc rt obj s
  = let '(k, x) := DeletionHandlingMetaNamespaceKeyFunc obj in
    let ev := mkEvent k "delete" (Namespace (GetObjectMetaData (Some obj))) rt in
    (tt, mkState (pkg s)
           (mkController
              (match x with
               | None => workqueue.lift (workqueue.Add ev) (queue (ctl s))
               | Some _ => queue (ctl s)
               end)
              (indexer (ctl s)) (eventHandler (ctl s)) ev x)
           (trace s ++ [Info ("Processing delete to " +:+ rt +:+ ": " +:+ k)])).
Proof.
  unfold DeleteFunc.
  destruct (DeletionHandlingMetaNamespaceKeyFunc obj) as [k [x|]]; reflexivity.
Qed.

Lemma processNextItem_consistent s :
  workqueue.consistent (workqueue.base (queue (ctl s))) →
  workqueue.consistent (workqueue.base (queue (ctl (snd (processNextItem s))))).
Proof.
  intros Hc.
  destruct (workqueue.Get (workqueue.base (queue (ctl s)))) as [e b| |] eqn:Hg.
  - destruct (processNextItem_Got s e b Hg) as (s' & -> & _ & Hb). simpl.
    rewrite Hb.
    apply consistent_Done; [by eapply consistent_Get | by eapply Get_Got_processing].
  - by rewrite processNextItem_Shutdown.
  - by rewrite processNextItem_Waits.
Qed.

Lemma runWorker_consistent fuel s :
  workqueue.consistent (workqueue.base (queue (ctl s))) →
  workqueue.consistent (workqueue.base (queue (ctl (snd (runWorker fuel s))))).
Proof.
  revert s. induction fuel as [|fuel IH]; intros s Hc; [done|].
  simpl. unfold bind. pose proof (processNextItem_consistent s Hc) as Hc'.
  destruct (processNextItem s) as [[[|]|] s']; simpl in *; [|done..].
  by apply IH.
Qed.

Lemma Until_consistent fuel (f : M Status) stopCh i s :
  (∀ s, workqueue.consistent (workqueue.base (queue (ctl s))) →
        workqueue.consistent (workqueue.base (queue (ctl (snd (f s)))))) →
  workqueue.consistent (workqueue.base (queue (ctl s))) →
  workqueue.consistent (workqueue.base (queue (ctl (snd (Until fuel f stopCh i s))))).
Proof.
  intros Hf. revert i s. induction fuel as [|fuel IH]; intros i s Hc; [done|].
  simpl. destruct (stopCh i); [done|]. unfold bind.
  pose proof (Hf s Hc) as Hc'. destruct (f s) as [[| |] s']; simpl in *; [|done..].
  destruct (stopCh (S i)); [done|]. by apply IH.
Qed.

Lemma Run_consistent now synced stopCh fuel s :
  workqueue.consistent (workqueue.base (queue (ctl s))) →
  workqueue.consistent
    (workqueue.base (queue (ctl (snd (Run now synced stopCh fuel s))))).
Proof.
  intros Hc. unfold Run, bind, emit, set_serverStartTime, modify. simpl.
  destruct synced; simpl; [|done].
  match goal with
  | |- context [Until fuel ?f stopCh 0 ?s0] =>
      pose proof (Until_consistent fuel f stopCh 0 s0
                    (runWorker_consistent fuel) Hc) as Hc';
      destruct (Until fuel f stopCh 0 s0) as [[| |] s']
  end; simpl in *; done.
Qed.

End keeps.

(** The bookkeeping of the queue stays sound under everything the
    controller does with it: if no notice is pending twice and every pending
    notice is marked dirty and not in process, the same holds after each of
    the three informer callbacks, after a step of the worker, after a delay
    has passed and after [Run], however it ends. *)
Theorem queue_stays_consistent `{Cluster} (s : State) :
  workqueue.consistent (workqueue.base (queue (ctl s))) →
  (∀ rt obj,
     workqueue.consistent (workqueue.base (queue (ctl (snd (AddFunc rt obj s))))))
  ∧ (∀ rt old new,
       workqueue.consistent
         (workqueue.base (queue (ctl (snd (UpdateFunc rt old new s))))))
  ∧ (∀ rt obj,
       workqueue.consistent (workqueue.base (queue (ctl (snd (DeleteFunc rt obj s))))))
  ∧ workqueue.consistent (workqueue.base (queue (ctl (snd (processNextItem s)))))
  ∧ (∀ e,
       workqueue.consistent
         (workqueue.base (queue (ctl (snd (with_queue (workqueue.fire e) s))))))
  ∧ (∀ now synced stopCh fuel,
       workqueue.consistent
         (workqueue.base (queue (ctl (snd (Run now synced stopCh fuel s)))))).
Proof.
  intros Hc. split; [|split; [|split; [|split; [|split]]]].
  - intros rt obj. rewrite AddFunc_eq.
    destruct (MetaNamespaceKeyFunc obj) as [k [x|]]; simpl; [done|].
    by apply consistent_Add.
  - intros rt old new. rewrite UpdateFunc_eq.
    destruct (MetaNamespaceKeyFunc old) as [k [x|]]; simpl; [done|].
    by apply consistent_Add.
  - intros rt obj. rewrite DeleteFunc_eq.
    destruct (DeletionHandlingMetaNamespaceKeyFunc obj) as [k [x|]]; simpl; [done|].
    by apply consistent_Add.
  - by apply processNextItem_consistent.
  - intros e. unfold with_queue, modify, workqueue.fire. simpl.
    destruct (workqueue.waitingForAdd (queue (ctl s)) !! e); simpl; [|done].
    by apply consistent_Add.
  - intros now synced stopCh fuel. by apply Run_consistent.
Qed.

Lemma queue_stays_consistent_witness :
  workqueue.consistent
    (workqueue.base (queue (ctl (snd (processNextItem sample.added))))).
Proof.
  apply (proj1 (proj2 (proj2 (proj2
           (queue_stays_consistent sample.added
              (proj1 (queue_stays_consistent sample.running consistent_New)
                 "pod" sample.web)))))).
Defined.

(** [processItem] touches nothing but the trace, and adds to it at most
    one entry, a call on the controller's handler: the queue, the variables
    of the callbacks and the package variables are as before, and nothing is
    logged or reported. *)
Theorem at_most_one_call `{Cluster} (s : State) (e : Event) :
  ∃ tr, snd (processItem e s) = mkState (pkg s) (ctl s) (trace s ++ tr)
        ∧ length tr ≤ 1
        ∧ ∀ eff, eff ∈ tr → ∃ c, eff = Called c (eventHandler (ctl s) c).
Proof.
  destruct (indexer (ctl s) (key e)) as [[obj found] [x|]] eqn:Hidx.
  - exists []. rewrite (processItem_err _ _ _ _ _ Hidx). simpl.
    rewrite app_nil_r. split; [by destruct s|]. split; [lia|].
    by intros eff ?%elem_of_nil.
  - rewrite (processItem_ok _ _ _ _ Hidx). simpl.
    destruct (forwards _ _ _).
    + eexists [_]. split; [reflexivity|]. split; [simpl; lia|].
      intros eff ->%list_elem_of_singleton. by eexists.
    + exists []. rewrite app_nil_r. split; [by destruct s|]. split; [simpl; lia|].
      by intros eff ?%elem_of_nil.
Qed.

(** A notice the worker has taken is released whatever the outcome of
    processing it: after the step it is neither in process nor pending nor
    marked dirty, and the notices behind it are pending as before.  It comes
    back only through a delay that passes or a new report of the informer. *)
Theorem item_released `{Cluster} (s : State) (e : Event) (b : workqueue.Type_ Event) :
  workqueue.consistent (workqueue.base (queue (ctl s))) →
  workqueue.Get (workqueue.base (queue (ctl s))) = workqueue.Got e b →
  let q' := workqueue.base (queue (ctl (snd (processNextItem s)))) in
  (e ∉ workqueue.processing q')
  ∧ (e ∉ workqueue.queue q')
  ∧ (e ∉ workqueue.dirty q')
  ∧ workqueue.queue (workqueue.base (queue (ctl s))) = e :: workqueue.queue q'.
Proof.
  intros [Hnd Hq] Hg q'.
  destruct (processNextItem_Got s e b Hg) as (s' & Hp & _ & Hb).
  subst q'. rewrite Hp. simpl. rewrite Hb. clear Hp Hb.
  unfold workqueue.Get in Hg.
  destruct (workqueue.queue (workqueue.base (queue (ctl s)))) as [|x rest] eqn:E;
    [by destruct (workqueue.shuttingDown _)|].
  injection Hg as -> <-.
  apply NoDup_cons in Hnd as [Hnotin _].
  unfold workqueue.Done. simpl.
  rewrite bool_decide_eq_false_2 by set_solver. simpl.
  split; [set_solver|]. split; [done|]. split; [set_solver | done].
Qed.

Lemma item_released_witness :
  mkEvent "default/web" "create" "" "pod"
  ∉ workqueue.processing
      (workqueue.base (queue (ctl (snd (processNextItem sample.added))))).
Proof.
  apply (proj1 (item_released sample.added (mkEvent "default/web" "create" "" "pod") _
                  (proj1 (queue_stays_consistent sample.running consistent_New)
                     "pod" sample.web)
                  eq_refl)).
Defined.

(** An object for which the key function fails is dropped on the spot:
    the callback logs its line and leaves the queue as it is, so the object
    is never processed and never retried.  This holds for all three
    callbacks. *)
Theorem unkeyable_dropped `{Cluster} (s : State) (rt : string) (obj new : Obj)
    (k : string) (x : error) :
  (MetaNamespaceKeyFunc obj = (k, Some x) →
   queue (ctl (snd (AddFunc rt obj s))) = queue (ctl s)
   ∧ queue (ctl (snd (UpdateFunc rt obj new s))) = queue (ctl s)
   ∧ trace (snd (AddFunc rt obj s))
     = (trace s ++ [Info ("Processing add to " +:+ rt +:+ ": " +:+ k)])%list)
  ∧ (DeletionHandlingMetaNamespaceKeyFunc obj = (k, Some x) →
     queue (ctl (snd (DeleteFunc rt obj s))) = queue (ctl s)
     ∧ trace (snd (DeleteFunc rt obj s))
       = (trace s ++ [Info ("Processing delete to " +:+ rt +:+ ": " +:+ k)])%list).
Proof.
  split; intros Hk.
  - rewrite AddFunc_eq, UpdateFunc_eq, Hk. done.
  - rewrite DeleteFunc_eq, Hk. done.
Qed.

(** Reports of the informer that repeat each other coalesce: a second
    add, update or deletion reported for the same object right after the
    first leaves the queue as the first left it. *)
Theorem repeated_report_coalesces `{Cluster} (s : State) (rt : string)
    (obj new new' : Obj) :
  queue (ctl (snd (AddFunc rt obj (snd (AddFunc rt obj s)))))
  = queue (ctl (snd (AddFunc rt obj s)))
  ∧ queue (ctl (snd (UpdateFunc rt obj new' (snd (UpdateFunc rt obj new s)))))
    = queue (ctl (snd (UpdateFunc rt obj new s)))
  ∧ queue (ctl (snd (DeleteFunc rt obj (snd (DeleteFunc rt obj s)))))
    = queue (ctl (snd (DeleteFunc rt obj s))).
Proof.
  split; [|split].
  - rewrite !AddFunc_eq. destruct (MetaNamespaceKeyFunc obj) as [k [x|]]; simpl;
      [done|]. unfold workqueue.lift. simpl. by rewrite Add_idem.
  - rewrite !UpdateFunc_eq. destruct (MetaNamespaceKeyFunc obj) as [k [x|]]; simpl;
      [done|]. unfold workqueue.lift. simpl. by rewrite Add_idem.
  - rewrite !DeleteFunc_eq.
    destruct (DeletionHandlingMetaNamespaceKeyFunc obj) as [k [x|]]; simpl;
      [done|]. unfold workqueue.lift. simpl. by rewrite Add_idem.
Qed.

Lemma unkeyable_dropped_witness :
  queue (ctl (snd (AddFunc (H:=sample.withStrays) "pod" None
                     (mkState sample.noFilters
                        (newResourceController (H:=sample.withStrays)
                           (fun _ => None) (fun _ => (None, false, None)))
                        []))))
  = workqueue.NewRateLimitingQueue.
Proof.
  apply (proj1 (proj1 (unkeyable_dropped (H:=sample.withStrays)
                         (mkState sample.noFilters
                            (newResourceController (H:=sample.withStrays)
                               (fun _ => None) (fun _ => (None, false, None)))
                            [])
                         "pod" None None "" "object has no meta")
                  eq_refl)).
Defined.

(** An error is handed to [HandleError] only for a notice that was
    requeued [maxRetries] times: whatever a step of the worker adds to the
    reports is the store's error for the notice it took, the notice had
    reached the bound, and its count is cleared by the same step. *)
Theorem gives_up_only_after_retries `{Cluster} (s : State) (e : Event)
    (b : workqueue.Type_ Event) (x : error) :
  workqueue.Get (workqueue.base (queue (ctl s))) = workqueue.Got e b →
  HandleError x ∈ trace (snd (processNextItem s)) →
  HandleError x ∈ trace s
  ∨ (maxRetries ≤ workqueue.NumRequeues e (queue (ctl s))
     ∧ workqueue.NumRequeues e (queue (ctl (snd (processNextItem s)))) = 0
     ∧ ∃ obj found failure,
         indexer (ctl s) (key e) = (obj, found, Some failure)
         ∧ x = fetchError e failure).
Proof.
  intros Hg.
  destruct (indexer (ctl s) (key e)) as [[obj found] [failure|]] eqn:Hidx.
  - destruct (decide (workqueue.NumRequeues e
                        (workqueue.lift (fun _ => b) (queue (ctl s))) < maxRetries))
      as [Hn | Hn].
    + erewrite processNextItem_retry by done. simpl.
      rewrite elem_of_app, list_elem_of_singleton. intros [Hin | Heq]; [by left|].
      discriminate Heq.
    + erewrite processNextItem_giveup by done. simpl.
      rewrite elem_of_app, !elem_of_cons, elem_of_nil.
      intros [Hin | [Heq | [Heq | []]]]; [by left | discriminate Heq |].
      injection Heq as ->. right. split; [|split].
      * unfold workqueue.NumRequeues in *. simpl in Hn. lia.
      * unfold workqueue.NumRequeues. simpl. by rewrite lookup_delete_eq.
      * by exists obj, found, failure.
  - erewrite processNextItem_ok by done. simpl.
    destruct (forwards _ _ _); simpl; [|by left].
    rewrite elem_of_app, list_elem_of_singleton. intros [Hin | Heq]; [by left|].
    discriminate Heq.
Qed.

Lemma gives_up_only_after_retries_witness :
  HandleError (fetchError (mkEvent "default/web" "update" "" "pod") "store closed")
  ∈ trace (state_with (workqueue.retrying (mkEvent "default/web" "update" "" "pod") 5)
             [] sample.storeDown)
  ∨ (maxRetries
     ≤ workqueue.NumRequeues (mkEvent "default/web" "update" "" "pod")
         (queue (ctl (state_with
                        (workqueue.retrying (mkEvent "default/web" "update" "" "pod") 5)
                        [] sample.storeDown)))
     ∧ workqueue.NumRequeues (mkEvent "default/web" "update" "" "pod")
         (queue (ctl (snd (processNextItem
                             (state_with
                                (workqueue.retrying
                                   (mkEvent "default/web" "update" "" "pod") 5)
                                [] sample.storeDown)))))
       = 0
     ∧ ∃ obj found failure,
         indexer (ctl (state_with
                         (workqueue.retrying (mkEvent "default/web" "update" "" "pod") 5)
                         [] sample.storeDown))
                 (key (mkEvent "default/web" "update" "" "pod"))
         = (obj, found, Some failure)
         ∧ fetchError (mkEvent "default/web" "update" "" "pod") "store closed"
           = fetchError (mkEvent "default/web" "update" "" "pod") failure).
Proof.
  right.
  destruct (gives_up_only_after_retries
              (state_with (workqueue.retrying (mkEvent "default/web" "update" "" "pod") 5)
                 [] sample.storeDown)
              (mkEvent "default/web" "update" "" "pod") _
              (fetchError (mkEvent "default/web" "update" "" "pod") "store closed")
              eq_refl) as [Hin | Hok].
  - vm_compute. right. left.
  - vm_compute in Hin. apply elem_of_nil in Hin. destruct Hin.
  - exact Hok.
Defined.

(** ** Loading the filter sets *)

(** [loadEventConfig] turns each list of the configuration that is not
    empty into the set of its entries, whatever the map held before: a
    resource type is found in the map exactly when it is in the list.  An
    empty list leaves its map as it was.  The start time, the controller
    and the trace are not touched. *)
Theorem loadEventConfig_membership `{Cluster} (c : config.Config) (s : State) :
  let s' := snd (loadEventConfig c s) in
  let e := config.cEvent c in
  let loaded (l : list string) (before after : gmap string N) :=
    (l = [] → after = before)
    ∧ (l ≠ [] → ∀ k, has after k = true ↔ k ∈ l) in
  loaded (config.Global e) (global (pkg s)) (global (pkg s'))
  ∧ loaded (config.Create e) (create (pkg s)) (create (pkg s'))
  ∧ loaded (config.Update e) (update (pkg s)) (update (pkg s'))
  ∧ loaded (config.Delete e) (delete_ (pkg s)) (delete_ (pkg s'))
  ∧ serverStartTime (pkg s') = serverStartTime (pkg s)
  ∧ ctl s' = ctl s
  ∧ trace s' = trace s.
Proof.
  intros s' e loaded. subst s' loaded. unfold loadEventConfig, modify. simpl.
  fold e.
  assert (Hl : ∀ (l : list string) (m : gmap string N),
            (l = [] → (if bool_decide (0 < length l) then load l else m) = m)
            ∧ (l ≠ [] → ∀ k,
                 has (if bool_decide (0 < length l) then load l else m) k = true
                 ↔ k ∈ l)).
  { intros l m. split.
    - by intros ->.
    - intros Hne k. rewrite bool_decide_eq_true_2; [apply has_load|].
      destruct l; [done | simpl; lia]. }
  split; [apply Hl|]. split; [apply Hl|]. split; [apply Hl|]. split; [apply Hl|].
  done.
Qed.

(** ** From the informer's report to the handler *)

Lemma calls_app `{Cluster} (tr1 tr2 : list Effect) :
  calls (tr1 ++ tr2) = (calls tr1 ++ calls tr2)%list.
Proof. unfold calls. apply omap_app. Qed.

(** An object reported as added and then taken by the worker: on a queue
    that was empty the step of the worker gets exactly this notice, looks the
    key up in the store and calls the create handler with what the store
    holds (not with the object reported) if that was created after the start
    time and the resource type is in the Global or Create set, and calls
    nothing otherwise; afterwards the queue is empty again and nothing is
    counted or delayed. *)
Theorem add_then_process `{Cluster} (s : State) (rt : string) (obj : Obj)
    (k : string) (stored : option Obj) (found : bool) :
  queue (ctl s) = workqueue.NewRateLimitingQueue →
  MetaNamespaceKeyFunc obj = (k, None) →
  indexer (ctl s) k = (stored, found, None) →
  let s' := snd (processNextItem (snd (AddFunc rt obj s))) in
  fst (processNextItem (snd (AddFunc rt obj s))) = Returns true
  ∧ queue (ctl s') = workqueue.NewRateLimitingQueue
  ∧ calls (trace s')
    = (calls (trace s)
       ++ if bool_decide (serverStartTime (pkg s)
                          < CreationTimestamp (GetObjectMetaData stored))%Z
             && (has (global (pkg s)) rt || has (create (pkg s)) rt)
          then [ObjectCreated stored] else [])%list.
Proof.
  intros Hq Hk Hidx s'. subst s'.
  rewrite AddFunc_eq, Hk. simpl. rewrite Hq, Add_New.
  set (ev := mkEvent k "create" (namespace (newEvent (ctl s))) rt).
  erewrite processNextItem_ok; [| apply Get_retrying | exact Hidx].
  simpl. split; [done|]. split; [apply forget_step|].
  unfold forwards, dispatch. simpl.
  destruct (_ && _); simpl; rewrite !calls_app; simpl; by rewrite ?app_nil_r.
Qed.

Lemma add_then_process_witness :
  fst (processNextItem (snd (AddFunc "pod" sample.web sample.running)))
  = Returns true.
Proof.
  apply (proj1 (add_then_process sample.running "pod" sample.web "default/web"
                  (Some sample.web) true eq_refl eq_refl eq_refl)).
Defined.

(** ** How many controllers [Start] runs *)






(** ** Retries of a notice among the other users of the queue *)

Section schedule.

Context `{Cluster}.

Implicit Types (s : State) (e y : Event).

Lemma AddRateLimited_other e y (q : workqueue.RateLimiting Event) :
  e ≠ y →
  workqueue.failures (workqueue.AddRateLimited y q) !! e = workqueue.failures q !! e
  ∧ workqueue.waitingForAdd (workqueue.AddRateLimited y q) !! e
    = workqueue.waitingForAdd q !! e.
Proof.
  intros Hne. unfold workqueue.AddRateLimited, workqueue.When, workqueue.AddAfter.
  simpl. destruct (workqueue.shuttingDown (workqueue.base q)); simpl.
  - by rewrite lookup_insert_ne.
  - case_bool_decide; simpl; by rewrite ?lookup_insert_ne.
Qed.

(** A step of the worker that takes [y]: what it leaves of the state. *)
Lemma processNextItem_taken s y b :
  workqueue.Get (workqueue.base (queue (ctl s))) = workqueue.Got y b →
  let s' := snd (processNextItem s) in
  workqueue.base (queue (ctl s')) = workqueue.Done y b
  ∧ indexer (ctl s') = indexer (ctl s)
  ∧ (∃ tr, trace s' = (trace s ++ tr)%list)
  ∧ (∀ e, e ≠ y →
       workqueue.failures (queue (ctl s')) !! e
       = workqueue.failures (queue (ctl s)) !! e)
  ∧ (∀ e, e ≠ y →
       workqueue.waitingForAdd (queue (ctl s')) !! e
       = workqueue.waitingForAdd (queue (ctl s)) !! e).
Proof.
  intros Hg s'. subst s'.
  destruct (indexer (ctl s) (key y)) as [[obj found] [x|]] eqn:Hidx.
  - destruct (decide (workqueue.NumRequeues y
                        (workqueue.lift (fun _ => b) (queue (ctl s))) < maxRetries)).
    + erewrite processNextItem_retry by done. simpl.
      rewrite base_AddRateLimited. simpl. split; [done|]. split; [done|].
      split; [by eexists|].
      split; intros e Hne;
        by destruct (AddRateLimited_other e y
                       (workqueue.lift (fun _ => b) (queue (ctl s))) Hne).
    + erewrite processNextItem_giveup by done. simpl.
      split; [done|]. split; [done|]. split; [by eexists|].
      split; intros e Hne; [by rewrite lookup_delete_ne | done].
  - erewrite processNextItem_ok by done. simpl.
    split; [done|]. split; [done|].
    split; [destruct (forwards _ _ _); simpl; [by eexists | exists []; by rewrite app_nil_r]|].
    split; intros e Hne; [by rewrite lookup_delete_ne | done].
Qed.


Lemma NumRequeues_failures e (q q' : workqueue.RateLimiting Event) :
  workqueue.failures q' !! e = workqueue.failures q !! e →
  workqueue.NumRequeues e q' = workqueue.NumRequeues e q.
Proof. unfold workqueue.NumRequeues. by intros ->. Qed.

Lemma Add_other e y (q : workqueue.Type_ Event) :
  e ≠ y →
  (e ∈ workqueue.queue (workqueue.Add y q) ↔ e ∈ workqueue.queue q)
  ∧ (e ∈ workqueue.dirty (workqueue.Add y q) ↔ e ∈ workqueue.dirty q).
Proof.
  intros Hne. unfold workqueue.Add.
  destruct (workqueue.shuttingDown q); [done|].
  case_bool_decide; [done|]. case_bool_decide; simpl.
  - split; [done | set_solver].
  - rewrite elem_of_app, list_elem_of_singleton. split; [tauto | set_solver].
Qed.

Lemma Add_frame y (q : workqueue.Type_ Event) :
  workqueue.processing (workqueue.Add y q) = workqueue.processing q
  ∧ workqueue.shuttingDown (workqueue.Add y q) = workqueue.shuttingDown q.
Proof.
  unfold workqueue.Add. destruct (workqueue.shuttingDown q) eqn:Hs; [done|].
  case_bool_decide; [done|]. by case_bool_decide.
Qed.

Lemma Add_self e (q : workqueue.Type_ Event) :
  workqueue.shuttingDown q = false →
  e ∉ workqueue.processing q →
  (e ∈ workqueue.dirty q → e ∈ workqueue.queue q) →
  e ∈ workqueue.queue (workqueue.Add e q)
  ∧ e ∈ workqueue.dirty (workqueue.Add e q).
Proof.
  intros Hs Hp Hd. unfold workqueue.Add. rewrite Hs.
  case_bool_decide as Hin; [by split; [apply Hd|]|].
  rewrite bool_decide_eq_false_2 by done. simpl.
  split; [apply elem_of_app; right; left | set_solver].
Qed.

(** What is true of [e] carries over to a state in which [e] stands as
    before. *)
Lemma retried_transfer e x k s s' :
  (pending e s' ↔ pending e s) →
  (delayed e s' ↔ delayed e s) →
  (e ∈ workqueue.dirty (workqueue.base (queue (ctl s')))
   ↔ e ∈ workqueue.dirty (workqueue.base (queue (ctl s)))) →
  workqueue.NumRequeues e (queue (ctl s')) = workqueue.NumRequeues e (queue (ctl s)) →
  (∀ eff, eff ∈ trace s → eff ∈ trace s') →
  retried e x k s → retried e x k s'.
Proof.
  intros Hp Hd Hdi Hn Ht [(Hk & Hl & Hc) | (Hk & (Hg1 & Hg2 & Hg3) & Hc & Hh)].
  - left. split; [done|]. split; [|by rewrite Hn].
    unfold live in *. rewrite Hp, Hd. done.
  - right. split; [done|]. split; [|split; [by rewrite Hn | by apply Ht]].
    unfold gone. rewrite Hp, Hd, Hdi. done.
Qed.

Lemma sound_transfer e s' :
  workqueue.consistent (workqueue.base (queue (ctl s'))) →
  workqueue.shuttingDown (workqueue.base (queue (ctl s'))) = false →
  e ∉ workqueue.processing (workqueue.base (queue (ctl s'))) →
  (e ∈ workqueue.dirty (workqueue.base (queue (ctl s'))) → pending e s') →
  sound e s'.
Proof. intros H1 H2 H3 H4. exact (conj H1 (conj H2 (conj H3 H4))). Qed.

(** One action keeps the queue sound for [e] and moves [e] on by one
    attempt exactly when the worker takes it. *)
Lemma act_retried s e obj found x k a :
  indexer (ctl s) (key e) = (obj, found, Some x) →
  sound e s →
  retried e (fetchError e x) k s →
  a ≠ Report e →
  indexer (ctl (snd (act a s))) = indexer (ctl s)
  ∧ sound e (snd (act a s))
  ∧ retried e (fetchError e x) (k + Nat.b2n (takes e a s)) (snd (act a s)).
Proof.
  intros Hidx Hsound Hr Ha. pose proof Hsound as (Hc & Hs & Hp & Hd).
  destruct a as [|y|y].
  - (* the worker takes a step *)
    unfold takes. simpl act. unfold bind.
    destruct (workqueue.Get (workqueue.base (queue (ctl s)))) as [y b| |] eqn:Hg.
    2:{ rewrite (processNextItem_Shutdown s Hg). simpl.
        rewrite ?bool_decide_eq_false_2 by done. simpl. by rewrite Nat.add_0_r. }
    2:{ rewrite (processNextItem_Waits s Hg). simpl.
        rewrite ?bool_decide_eq_false_2 by done. simpl. by rewrite Nat.add_0_r. }
    pose proof (Get_Got_inv _ _ _ Hg) as (Hq & Hdb & Hpb & Hsb).
    pose proof (processNextItem_consistent s Hc) as Hc'.
    destruct (decide (y = e)) as [-> | Hne].
    + (* it takes [e] *)
      rewrite bool_decide_eq_true_2 by done. simpl.
      assert (Hpend : pending e s) by (unfold pending; rewrite Hq; left).
      assert (Hnotin : e ∉ workqueue.queue b).
      { destruct Hc as [Hnd _]. rewrite Hq in Hnd. by apply NoDup_cons in Hnd as [? _]. }
      destruct Hr as [(Hk & [[_ Hnd] | [Hnp _]] & Hn) | (_ & (Hnp & _) & _)];
        [| done | done].
      destruct (processNextItem s) as [r s'] eqn:Hstep. simpl in *.
      destruct (decide (k < maxRetries)) as [Hlt | Hge].
      * assert (Hs' : s' = state_with
                            (workqueue.lift (workqueue.Done e)
                               (workqueue.AddRateLimited e
                                  (workqueue.lift (fun _ => b) (queue (ctl s)))))
                            (trace s ++ [willRetry e (fetchError e x)]) s).
        { erewrite processNextItem_retry in Hstep;
            [by injection Hstep as _ <- | done | done |].
          unfold workqueue.NumRequeues in *. simpl. by rewrite Hn. }
        subst s'. simpl. split; [done|].
        set (S' := state_with _ _ s) in *.
        assert (Hbase : workqueue.base (queue (ctl S'))
                        = workqueue.mkType (workqueue.queue b)
                            (workqueue.dirty (workqueue.base (queue (ctl s))) ∖ {[e]})
                            (({[e]} ∪ workqueue.processing (workqueue.base (queue (ctl s))))
                               ∖ {[e]})
                            (workqueue.shuttingDown (workqueue.base (queue (ctl s))))).
        { subst S'. simpl. rewrite base_AddRateLimited. simpl.
          by apply Done_after_Get. }
        assert (Hafter : workqueue.AddRateLimited e
                           (workqueue.lift (fun _ => b) (queue (ctl s)))
                         = workqueue.mkRateLimiting b
                             (<[e := workqueue.backoff k]>
                                (workqueue.waitingForAdd (queue (ctl s))))
                             (<[e := S k]> (workqueue.failures (queue (ctl s))))).
        { assert (Hw : workqueue.waitingForAdd (queue (ctl s)) !! e = None).
          { destruct (workqueue.waitingForAdd (queue (ctl s)) !! e) eqn:Hw; [|done].
            exfalso. apply Hnd. unfold delayed. by rewrite Hw. }
          unfold workqueue.AddRateLimited, workqueue.When, workqueue.AddAfter.
          assert (Hn' : workqueue.NumRequeues e
                          (workqueue.lift (fun _ => b) (queue (ctl s))) = k)
            by (by rewrite <- Hn).
          rewrite Hn'. simpl. rewrite Hsb, Hs.
          rewrite bool_decide_eq_false_2 by (pose proof (backoff_pos k); lia).
          simpl. case_match eqn:Hw'; [|done].
          exfalso. apply Hnd. eexists. exact Hw'. }
        split.
        -- apply sound_transfer; [done | rewrite Hbase; exact Hs
                                 | rewrite Hbase; simpl; set_solver
                                 | rewrite Hbase; simpl; set_solver].
        -- left. split; [lia|]. split.
           ++ right. unfold pending, delayed. rewrite Hbase. simpl. split; [done|].
              subst S'. simpl. rewrite Hafter. simpl. rewrite lookup_insert_eq.
              by eexists.
           ++ subst S'. unfold workqueue.NumRequeues. simpl. rewrite Hafter. simpl.
              rewrite lookup_insert_eq. simpl. lia.
      * assert (Hs' : s' = state_with
                            (workqueue.lift (workqueue.Done e)
                               (workqueue.Forget e
                                  (workqueue.lift (fun _ => b) (queue (ctl s)))))
                            (trace s ++ [givingUp e (fetchError e x);
                                         HandleError (fetchError e x)]) s).
        { erewrite processNextItem_giveup in Hstep;
            [by injection Hstep as _ <- | done | done |].
          unfold workqueue.NumRequeues in *. simpl. by rewrite Hn. }
        subst s'. simpl. split; [done|].
        set (S' := state_with _ _ s) in *.
        assert (Hbase : workqueue.base (queue (ctl S'))
                        = workqueue.mkType (workqueue.queue b)
                            (workqueue.dirty (workqueue.base (queue (ctl s))) ∖ {[e]})
                            (({[e]} ∪ workqueue.processing (workqueue.base (queue (ctl s))))
                               ∖ {[e]})
                            (workqueue.shuttingDown (workqueue.base (queue (ctl s))))).
        { subst S'. simpl. by apply Done_after_Get. }
        split.
        -- apply sound_transfer; [done | rewrite Hbase; exact Hs
                                 | rewrite Hbase; simpl; set_solver
                                 | rewrite Hbase; simpl; set_solver].
        -- right. split; [unfold maxRetries in *; lia|]. split; [|split].
           ++ unfold gone, pending, delayed. rewrite Hbase. simpl.
              split; [done|]. split; [done | set_solver].
           ++ subst S'. unfold workqueue.NumRequeues. simpl.
              by rewrite lookup_delete_eq.
           ++ subst S'. simpl. rewrite elem_of_app. right. right. left.
    + (* it takes another notice *)
      rewrite bool_decide_eq_false_2 by (simpl; congruence).
      simpl. rewrite Nat.add_0_r.
      pose proof (processNextItem_taken s y b Hg) as (Hb & Hi & [tr Ht] & Hf & Hw).
      destruct (processNextItem s) as [r s'] eqn:Hstep. simpl in *.
      rewrite (Done_after_Get _ _ _ Hg) in Hb.
      assert (Hpe : pending e s' ↔ pending e s).
      { unfold pending. rewrite Hb, Hq. simpl. rewrite elem_of_cons. naive_solver. }
      assert (Hdi : e ∈ workqueue.dirty (workqueue.base (queue (ctl s')))
                    ↔ e ∈ workqueue.dirty (workqueue.base (queue (ctl s)))).
      { rewrite Hb. simpl. set_solver. }
      split; [done|]. split.
      * apply sound_transfer; [done | by rewrite Hb | rewrite Hb; simpl; set_solver |].
        rewrite Hdi, Hpe. done.
      * eapply retried_transfer; [done | | done | | | done].
        -- unfold delayed. by rewrite Hw.
        -- apply NumRequeues_failures. by apply Hf.
        -- intros eff Hin. rewrite Ht, elem_of_app. by left.
  - (* a delay passes *)
    simpl. rewrite Nat.add_0_r. unfold with_queue, modify, workqueue.fire. simpl.
    destruct (workqueue.waitingForAdd (queue (ctl s)) !! y) as [d|] eqn:Hw; simpl;
      [|split; [done | split; [exact Hsound | exact Hr]]].
    pose proof (Add_frame y (workqueue.base (queue (ctl s)))) as [Hpa Hsa].
    split; [done|].
    destruct (decide (y = e)) as [-> | Hne].
    + destruct (Add_self e (workqueue.base (queue (ctl s))) Hs Hp Hd) as [Hq' Hd'].
      split.
      * apply sound_transfer; simpl; [by apply consistent_Add | by rewrite Hsa
                                     | by rewrite Hpa | done].
      * destruct Hr as [(Hk & [[_ Hnd] | [Hnp Hdl]] & Hn) | (_ & (_ & Hnd & _) & _)].
        -- exfalso. apply Hnd. eexists. exact Hw.
        -- left. split; [done|]. split; [|done].
           left. unfold pending, delayed. simpl. split; [done|].
           rewrite lookup_delete_eq. by intros [? ?].
        -- exfalso. apply Hnd. eexists. exact Hw.
    + assert (Hne' : e ≠ y) by congruence.
      destruct (Add_other e y (workqueue.base (queue (ctl s))) Hne') as [Hq' Hd'].
      split.
      * apply sound_transfer; simpl; [by apply consistent_Add | by rewrite Hsa
                                     | by rewrite Hpa |].
        rewrite Hd'. unfold pending. simpl. rewrite Hq'. done.
      * eapply retried_transfer; [| | | | | done]; simpl; try done.
        -- unfold delayed. simpl. by rewrite lookup_delete_ne.
  - (* the informer reports another notice *)
    simpl. rewrite Nat.add_0_r. unfold with_queue, modify. simpl.
    assert (Hne : e ≠ y) by congruence.
    pose proof (Add_frame y (workqueue.base (queue (ctl s)))) as [Hpa Hsa].
    destruct (Add_other e y (workqueue.base (queue (ctl s))) Hne) as [Hq' Hd'].
    split; [done|]. split.
    + apply sound_transfer; simpl; [by apply consistent_Add | by rewrite Hsa
                                   | by rewrite Hpa |].
      rewrite Hd'. unfold pending. simpl. rewrite Hq'. done.
    + eapply retried_transfer; [| | | | | done]; simpl; done.
Qed.


Lemma run_app (a1 a2 : list Action) s :
  run (a1 ++ a2) s = run a2 (run a1 s).
Proof. revert s. induction a1 as [|a a1 IH]; intros s; [done | apply IH]. Qed.

Lemma attempts_app e (a1 a2 : list Action) s :
  attempts e (a1 ++ a2) s = attempts e a1 s + attempts e a2 (run a1 s).
Proof.
  revert s. induction a1 as [|a a1 IH]; intros s; [done|].
  simpl. rewrite IH. lia.
Qed.

(** Whatever else goes on in the queue, as long as the informer does not
    report [e] again, [e] stands where its attempts so far put it. *)
Lemma run_retried e obj found x (acts : list Action) :
  ∀ s k,
    indexer (ctl s) (key e) = (obj, found, Some x) →
    sound e s →
    retried e (fetchError e x) k s →
    Report e ∉ acts →
    indexer (ctl (run acts s)) = indexer (ctl s)
    ∧ sound e (run acts s)
    ∧ retried e (fetchError e x) (k + attempts e acts s) (run acts s).
Proof.
  induction acts as [|a acts IH]; intros s k Hidx Hs Hr Hno.
  - simpl. by rewrite Nat.add_0_r.
  - apply not_elem_of_cons in Hno as [Hne Hno].
    destruct (act_retried s e obj found x k a Hidx Hs Hr) as (Hi & Hs' & Hr');
      [congruence|].
    destruct (IH (snd (act a s)) (k + Nat.b2n (takes e a s))) as (Hi'' & Hs'' & Hr'');
      [by rewrite Hi | done | done | done |].
    simpl. split; [by rewrite Hi'', Hi|]. split; [done|].
    by rewrite Nat.add_assoc.
Qed.

(** The worker works off what stands in front of [e]. *)
Lemma work_through e (l2 : list Event) (l1 : list Event) :
  ∀ s,
    workqueue.queue (workqueue.base (queue (ctl s))) = (l1 ++ e :: l2)%list →
    e ∉ l1 →
    attempts e (repeat Work (length l1)) s = 0
    ∧ workqueue.queue (workqueue.base (queue (ctl (run (repeat Work (length l1)) s))))
      = e :: l2.
Proof.
  induction l1 as [|y l1 IH]; intros s Hq Hnotin; [done|].
  apply not_elem_of_cons in Hnotin as [Hne Hnotin].
  assert (Hg : ∃ b, workqueue.Get (workqueue.base (queue (ctl s))) = workqueue.Got y b
                    ∧ workqueue.queue b = (l1 ++ e :: l2)%list).
  { unfold workqueue.Get. rewrite Hq. simpl. by eexists. }
  destruct Hg as (b & Hg & Hqb).
  pose proof (processNextItem_taken s y b Hg) as (Hb & _).
  rewrite (Done_after_Get _ _ _ Hg) in Hb.
  simpl. unfold bind.
  destruct (processNextItem s) as [r s'] eqn:Hstep. simpl in *.
  destruct (IH s') as [Ha Hq']; [by rewrite Hb | done |].
  rewrite Hg. simpl. rewrite bool_decide_eq_false_2 by congruence.
  by rewrite Ha, Hq'.
Qed.

Lemma Fire_not_delayed e s : ¬ delayed e (snd (act (Fire e) s)).
Proof.
  simpl. unfold with_queue, modify, workqueue.fire, delayed. simpl.
  destruct (workqueue.waitingForAdd (queue (ctl s)) !! e) as [d|] eqn:Hw; simpl.
  - rewrite lookup_delete_eq. by intros [? ?].
  - intros [d Hd]. congruence.
Qed.

(** A notice that is live gets its next attempt once its delay has passed
    and the worker has come to it. *)
Lemma next_attempt s e obj found x k :
  indexer (ctl s) (key e) = (obj, found, Some x) →
  sound e s →
  retried e (fetchError e x) k s →
  k ≤ maxRetries →
  ∃ acts, Forall (fun a => a = Work ∨ a = Fire e) acts
          ∧ attempts e acts s = 1.
Proof.
  intros Hidx Hs Hr Hk.
  destruct (act_retried s e obj found x k (Fire e) Hidx Hs Hr) as (Hi & Hs1 & Hr1);
    [done|].
  set (s1 := snd (act (Fire e) s)) in *.
  assert (Hpend : pending e s1).
  { pose proof (Fire_not_delayed e s) as Hnd. fold s1 in Hnd.
    destruct Hr1 as [(_ & [[? _] | [_ ?]] & _) | (Hk' & _)];
      [done | done | simpl in Hk'; lia]. }
  apply list_elem_of_split in Hpend as (l1 & l2 & Hq).
  assert (Hnotin : e ∉ l1).
  { destruct Hs1 as [[Hnd _] _]. rewrite Hq in Hnd.
    apply NoDup_app in Hnd as (_ & Hdis & _). intros Hin.
    apply (Hdis e Hin). left. }
  destruct (work_through e l2 l1 s1 Hq Hnotin) as [Ha Hq2].
  exists (Fire e :: repeat Work (length l1) ++ [Work]). split.
  - apply Forall_cons. split; [by right|]. apply Forall_app. split.
    + apply Forall_forall. intros a ->%list_elem_of_In%repeat_spec. by left.
    + apply Forall_singleton. by left.
  - change (attempts e (Fire e :: repeat Work (length l1) ++ [Work]) s)
      with (0 + attempts e (repeat Work (length l1) ++ [Work]) s1).
    rewrite attempts_app, Ha. simpl.
    unfold workqueue.Get. rewrite Hq2. simpl.
    by rewrite bool_decide_eq_true_2.
Qed.

Lemma reach_attempts e obj found x (n : nat) :
  ∀ s k,
    indexer (ctl s) (key e) = (obj, found, Some x) →
    sound e s →
    retried e (fetchError e x) k s →
    k + n = S maxRetries →
    ∃ acts, Forall (fun a => a = Work ∨ a = Fire e) acts
            ∧ attempts e acts s = n.
Proof.
  induction n as [|n IH]; intros s k Hidx Hs Hr Hk.
  - exists []. by split.
  - destruct (next_attempt s e obj found x k Hidx Hs Hr) as (a1 & Hf1 & Ha1); [lia|].
    assert (Hno : Report e ∉ a1).
    { intros Hin. rewrite Forall_forall in Hf1. by destruct (Hf1 _ Hin). }
    destruct (run_retried e obj found x a1 s k Hidx Hs Hr Hno) as (Hi & Hs' & Hr').
    rewrite Ha1 in Hr'.
    destruct (IH (run a1 s) (k + 1)) as (a2 & Hf2 & Ha2);
      [by rewrite Hi | done | done | lia |].
    exists (a1 ++ a2)%list. split; [by apply Forall_app|].
    rewrite attempts_app, Ha1, Ha2. lia.
Qed.

End schedule.

(** A notice whose lookup fails on every attempt, among whatever else the
    queue holds. *)
Lemma retry_schedule `{Cluster} (s : State) (e : Event)
    (obj : option Obj) (found : bool) (x : error) :
  indexer (ctl s) (key e) = (obj, found, Some x) →
  sound e s → pending e s → ¬ delayed e s →
  workqueue.NumRequeues e (queue (ctl s)) = 0 →
  (∀ acts, Report e ∉ acts →
     retried e (fetchError e x) (attempts e acts s) (run acts s))
  ∧ (∃ acts, Forall (fun a => a = Work ∨ a = Fire e) acts
             ∧ attempts e acts s = S maxRetries).
Proof.
  intros Hidx Hs Hp Hd Hn.
  assert (H0 : retried e (fetchError e x) 0 s).
  { left. split; [lia|]. split; [by left | done]. }
  split.
  - intros acts Hno.
    by destruct (run_retried e obj found x acts s 0 Hidx Hs H0 Hno) as (_ & _ & ?).
  - by apply (reach_attempts e obj found x (S maxRetries) s 0).
Qed.

Lemma processNextItem_failed `{Cluster} (s : State) (e : Event) b obj found x :
  workqueue.Get (workqueue.base (queue (ctl s))) = workqueue.Got e b →
  indexer (ctl s) (key e) = (obj, found, Some x) →
  let q := workqueue.lift (fun _ => b) (queue (ctl s)) in
  processNextItem s
  = (Returns true,
     if bool_decide (workqueue.NumRequeues e (queue (ctl s)) < maxRetries)
     then state_with (workqueue.lift (workqueue.Done e) (workqueue.AddRateLimited e q))
            (trace s ++ [willRetry e (fetchError e x)]) s
     else state_with (workqueue.lift (workqueue.Done e) (workqueue.Forget e q))
            (trace s ++ [givingUp e (fetchError e x); HandleError (fetchError e x)]) s).
Proof.
  intros Hg Hidx q. case_bool_decide.
  - by eapply processNextItem_retry.
  - by eapply processNextItem_giveup.
Qed.

(** C3. Retry bound.  The notice [e] is pending in the queue of a
    controller whose store fails for the key of [e] on every attempt; the
    queue may hold any other notices, pending, delayed or counted as failed.
    Whatever happens next (steps of the worker, delays that pass, reports
    of other notices by the informer) as long as [e] itself is not reported
    again: after [k] attempts on [e], for [k] up to [maxRetries] = 5, [e] is
    on its way to the next attempt, requeued with a delay or pending again,
    and its requeue count is [k]; the sixth attempt leaves nothing of [e] in
    the queue, its count cleared and the error handed to [HandleError].
    There is a seventh attempt in no course of events, and the six attempts
    do happen once the delays pass and the worker works.  The step of the
    worker itself: a failed attempt with the count below 5 requeues the item
    with [AddRateLimited], otherwise it forgets the item and calls
    [HandleError]; an attempt on which the store answers forgets the item,
    whatever its count was, and leaves every other count alone. *)
Theorem retry_bound `{Cluster} (s : State) (e : Event)
    (obj : option Obj) (found : bool) (x : error) :
  indexer (ctl s) (key e) = (obj, found, Some x) →
  sound e s → pending e s → ¬ delayed e s →
  workqueue.NumRequeues e (queue (ctl s)) = 0 →
  let failure := fetchError e x in
  (∀ acts, Report e ∉ acts →
     retried e failure (attempts e acts s) (run acts s))
  ∧ (∃ acts, Forall (fun a => a = Work ∨ a = Fire e) acts
             ∧ attempts e acts s = S maxRetries)
  ∧ (∀ acts more, Report e ∉ acts → Report e ∉ more →
       attempts e acts s = S maxRetries →
       attempts e more (run acts s) = 0)
  ∧ (∀ (s' : State) (e' : Event) b obj' found' x',
       workqueue.Get (workqueue.base (queue (ctl s'))) = workqueue.Got e' b →
       indexer (ctl s') (key e') = (obj', found', Some x') →
       let q := workqueue.lift (fun _ => b) (queue (ctl s')) in
       processNextItem s'
       = (Returns true,
          if bool_decide (workqueue.NumRequeues e' (queue (ctl s')) < maxRetries)
          then state_with (workqueue.lift (workqueue.Done e') (workqueue.AddRateLimited e' q))
                 (trace s' ++ [willRetry e' (fetchError e' x')]) s'
          else state_with (workqueue.lift (workqueue.Done e') (workqueue.Forget e' q))
                 (trace s' ++ [givingUp e' (fetchError e' x');
                               HandleError (fetchError e' x')]) s'))
  ∧ (∀ (s' : State) (e' : Event) b obj' found',
       workqueue.Get (workqueue.base (queue (ctl s'))) = workqueue.Got e' b →
       indexer (ctl s') (key e') = (obj', found', None) →
       let s'' := snd (processNextItem s') in
       workqueue.NumRequeues e' (queue (ctl s'')) = 0
       ∧ ∀ y, y ≠ e' →
           workqueue.NumRequeues y (queue (ctl s''))
           = workqueue.NumRequeues y (queue (ctl s'))).
Proof.
  intros Hidx Hs Hp Hd Hn failure.
  destruct (retry_schedule s e obj found x Hidx Hs Hp Hd Hn) as [Hsafe Hlive].
  split; [exact Hsafe|]. split; [exact Hlive|]. split; [|split].
  - intros acts more Hno Hno' Ha.
    assert (Hall : Report e ∉ (acts ++ more)%list).
    { rewrite elem_of_app. tauto. }
    pose proof (Hsafe _ Hall) as [(Hk & _) | (Hk & _)];
      rewrite attempts_app, Ha in Hk; unfold maxRetries in Hk; lia.
  - intros s' e' b obj' found' x' Hg Hi. by eapply processNextItem_failed.
  - intros s' e' b obj' found' Hg Hi s''. subst s''.
    pose proof (processNextItem_taken s' e' b Hg) as (_ & _ & _ & Hf & _).
    split.
    + erewrite processNextItem_ok by done. simpl.
      unfold workqueue.NumRequeues. simpl. by rewrite lookup_delete_eq.
    + intros y Hy. apply NumRequeues_failures. by apply Hf.
Qed.

Lemma sound_busy : sound sample.webUpdated sample.busy.
Proof.
  split; [|split; [|split]].
  - exact (consistent_Add _ _ (consistent_Add _ _ consistent_New)).
  - reflexivity.
  - intros Hin. vm_compute in Hin. discriminate.
  - intros _. apply list_elem_of_In. vm_compute. right. left. reflexivity.
Qed.

Lemma retry_bound_witness :
  ∃ acts, Forall (fun a => a = Work ∨ a = Fire sample.webUpdated) acts
          ∧ attempts sample.webUpdated acts sample.busy = S maxRetries.
Proof.
  refine (proj1 (proj2 (retry_bound sample.busy sample.webUpdated None false "store closed"
                          eq_refl sound_busy _ _ eq_refl))).
  - apply list_elem_of_In. vm_compute. right. left. reflexivity.
  - intros [d Hd]. vm_compute in Hd. discriminate.
Defined.

(** C5, amended.  [processItem] fails exactly when the lookup in the
    store returns an error, and then with the message built from it; the
    flag telling whether the object was found is not looked at.  So a miss
    (no object, no error) is processed like a hit: no error, the count of
    the notice is cleared and nothing is requeued.  An error of the store
    requeues the notice with a delay while it was requeued fewer than
    [maxRetries] = 5 times, and drops it with "giving up" and [HandleError]
    otherwise.  The count is that of the notice as a value (key, kind of
    change, namespace, resource type), not of the key: the step leaves the
    count and the delay of every other notice alone, also of one with the
    same key.  So each notice whose lookup keeps failing is attempted six
    times and then dropped, whatever else is in the queue. *)
Theorem lookup_error_retried `{Cluster} (s : State) (e : Event)
    (obj : option Obj) (found : bool) (failure : option error) :
  indexer (ctl s) (key e) = (obj, found, failure) →
  fst (processItem e s) = fetchError e <$> failure
  ∧ (∀ b, workqueue.Get (workqueue.base (queue (ctl s))) = workqueue.Got e b →
       let n := workqueue.NumRequeues e (queue (ctl s)) in
       let s' := snd (processNextItem s) in
       (∀ y, y ≠ e →
          workqueue.NumRequeues y (queue (ctl s')) = workqueue.NumRequeues y (queue (ctl s))
          ∧ workqueue.waitingForAdd (queue (ctl s')) !! y
            = workqueue.waitingForAdd (queue (ctl s)) !! y)
       ∧ match failure with
         | None =>
             workqueue.NumRequeues e (queue (ctl s')) = 0
             ∧ workqueue.waitingForAdd (queue (ctl s')) = workqueue.waitingForAdd (queue (ctl s))
             ∧ trace s'
               = (if forwards (pkg s) (CreationTimestamp (GetObjectMetaData obj)) e
                  then trace s ++ [Called (dispatch e obj)
                                          (eventHandler (ctl s) (dispatch e obj))]
                  else trace s)%list
         | Some x =>
             if bool_decide (n < maxRetries)
             then workqueue.NumRequeues e (queue (ctl s')) = S n
                  ∧ (workqueue.shuttingDown (workqueue.base (queue (ctl s))) = false →
                     delayed e s')
                  ∧ trace s' = (trace s ++ [willRetry e (fetchError e x)])%list
             else workqueue.NumRequeues e (queue (ctl s')) = 0
                  ∧ workqueue.waitingForAdd (queue (ctl s'))
                    = workqueue.waitingForAdd (queue (ctl s))
                  ∧ trace s' = (trace s ++ [givingUp e (fetchError e x);
                                            HandleError (fetchError e x)])%list
         end)
  ∧ (∀ x, failure = Some x →
       sound e s → pending e s → ¬ delayed e s →
       workqueue.NumRequeues e (queue (ctl s)) = 0 →
       (∀ acts, Report e ∉ acts →
          retried e (fetchError e x) (attempts e acts s) (run acts s))
       ∧ (∃ acts, Forall (fun a => a = Work ∨ a = Fire e) acts
                  ∧ attempts e acts s = S maxRetries)).
Proof.
  intros Hidx. split; [|split].
  - destruct failure as [x|]; simpl.
    + by erewrite processItem_err by exact Hidx.
    + by erewrite processItem_ok by exact Hidx.
  - intros b Hg n s'. subst s'.
    pose proof (processNextItem_taken s e b Hg) as (_ & _ & _ & Hf & Hw).
    split.
    { intros y Hy. split; [apply NumRequeues_failures; by apply Hf | by apply Hw]. }
    destruct failure as [x|].
    + rewrite (processNextItem_failed s e b obj found x Hg Hidx). fold n.
      case_bool_decide as Hn; simpl.
      * split; [|split; [|done]].
        -- unfold workqueue.AddRateLimited, workqueue.When, workqueue.AddAfter. simpl.
           destruct (workqueue.shuttingDown b); simpl.
           ++ unfold workqueue.NumRequeues. simpl. by rewrite lookup_insert_eq.
           ++ case_bool_decide; unfold workqueue.NumRequeues; simpl;
                by rewrite lookup_insert_eq.
        -- intros Hs.
           pose proof (Get_Got_inv _ _ _ Hg) as (Hq & Hdb & Hpb & Hsb).
           unfold delayed. simpl.
           unfold workqueue.AddRateLimited, workqueue.When, workqueue.AddAfter. simpl.
           rewrite Hsb, Hs.
           rewrite bool_decide_eq_false_2
             by (pose proof (backoff_pos (workqueue.NumRequeues e
                               (workqueue.lift (fun _ => b) (queue (ctl s))))); lia).
           simpl. rewrite lookup_insert_eq. by eexists.
      * split; [|done]. unfold workqueue.NumRequeues. simpl. by rewrite lookup_delete_eq.
    + erewrite processNextItem_ok by done. simpl.
      split; [unfold workqueue.NumRequeues; simpl; by rewrite lookup_delete_eq|].
      split; [done|]. by destruct (forwards _ _ _).
  - intros x -> Hs Hp Hd Hn. by eapply retry_schedule.
Qed.

Lemma lookup_error_retried_witness :
  workqueue.NumRequeues sample.webDeleted (queue (ctl (snd (processNextItem sample.busy)))) = 1
  ∧ workqueue.NumRequeues sample.webUpdated (queue (ctl (snd (processNextItem sample.busy)))) = 0.
Proof.
  pose proof (proj1 (proj2 (lookup_error_retried sample.busy sample.webDeleted None false
                              (Some "store closed") eq_refl)) _ eq_refl) as [Hy He].
  split.
  - exact (proj1 He).
  - exact (proj1 (Hy sample.webUpdated ltac:(discriminate))).
Defined.

(** Two notices of one key are retried apart: the deletion and the update
    of the pod web, the store failing, are requeued five times each and
    given up one after the other. *)
Lemma per_notice_counts :
  key sample.webUpdated = key sample.webDeleted
  ∧ trace (snd (rounds 12 sample.busy))
    = (repeat (willRetry sample.webUpdated (fetchError sample.webUpdated "store closed")) 10
       ++ [givingUp sample.webDeleted (fetchError sample.webDeleted "store closed");
           HandleError (fetchError sample.webDeleted "store closed");
           givingUp sample.webUpdated (fetchError sample.webUpdated "store closed");
           HandleError (fetchError sample.webUpdated "store closed")])%list.
Proof. split; vm_compute; reflexivity. Qed.
